(** * The Redis claim controller of zaqar, embedded in Rocq

    Source: [zaqar/queues/storage/redis/claims.py] (class [ClaimController]
    and the module function [_msg_would_expire]).

    The controller talks to a Redis server that other clients use at the
    same time.  The embedding keeps that shape:

    - the server is a [Store]: one finite map per family of keys the
      controller touches (sets, lists, claim hashes, message hashes,
      counters), plus a modification stamp per key, which is what WATCH
      observes;
    - a client call is a computation in the monad [M]: it threads a [World]
      (the store, how many times the clock and the id generator were
      consulted, and the log of round trips made so far) and either returns
      or raises a Python exception;
    - every round trip first lets the other clients act ([interference]),
      then runs its own command;
    - a pipeline is the list of commands staged on it; [execute] applies
      the whole list at once, or nothing at all when the watched key was
      modified since WATCH.

    Code the controller calls but that lives in other modules (the message
    controller, the queue controller, [utils], [timeutils]) is taken as a
    parameter, see [Collaborators] and [Environment].  The connection never
    fails here, so the decorators [raises_conn_error] and
    [retries_on_connection_error] have nothing to do. *)

From Stdlib Require Import ZArith Lia.
From stdpp Require Import base option list strings gmap.

Local Open Scope Z_scope.

(** ** Messages *)

(** Modelled from the spec: the class [Message] of
    [zaqar.queues.storage.redis.messages] is imported by the controller but
    is defined in another file.  The fields are those the data model lists
    for a message; [claim_id = None] is Python's [None]. *)
Module Message.
Record t := mk {
  id : string;
  body : string;
  ttl : Z;
  expires : Z;
  claim_id : option string;
  claim_expires : Z
}.

Definition set_claim_id (v : option string) (m : t) : t :=
  mk (id m) (body m) (ttl m) (expires m) v (claim_expires m).
Definition set_claim_expires (v : Z) (m : t) : t :=
  mk (id m) (body m) (ttl m) (expires m) (claim_id m) v.
Definition set_ttl (v : Z) (m : t) : t :=
  mk (id m) (body m) v (expires m) (claim_id m) (claim_expires m).
Definition set_expires (v : Z) (m : t) : t :=
  mk (id m) (body m) (ttl m) v (claim_id m) (claim_expires m).
End Message.

(** ** The Redis server *)

(** A field of a claim hash: Redis stores byte strings, some of which the
    controller reads back through [int]. *)
Inductive field :=
| FInt (n : Z)
| FStr (s : string).

(** The keys of one family never collide with those of another: the
    scoping functions of [utils] give each family its own shape.  An absent
    key reads as the empty set, the empty list, the empty hash, and as 0
    for a counter, as in Redis. *)
Record Store := mkStore {
  sets : gmap string (gset string);
  lists : gmap string (list string);
  hashes : gmap string (gmap string field);
  messages : gmap string Message.t;
  counters : gmap string Z;
  stamps : gmap string nat
}.

Definition smembers (s : Store) (key : string) : gset string :=
  default ∅ (sets s !! key).
Definition lrange (s : Store) (key : string) : list string :=
  default [] (lists s !! key).
Definition hgetall_claim (s : Store) (key : string) : gmap string field :=
  default ∅ (hashes s !! key).
Definition hgetall (s : Store) (key : string) : option Message.t :=
  messages s !! key.
Definition counter (s : Store) (key : string) : Z :=
  default 0 (counters s !! key).
Definition stamp (s : Store) (key : string) : nat :=
  default 0%nat (stamps s !! key).

(** The commands the controller stages on a pipeline.  [TO_REDIS msg] is
    [msg.to_redis(pipe)]: the whole message record written under the
    message's own id.  [INC_CLAIMED] is what the queue controller's
    [_inc_claimed] stages. *)
Inductive Cmd :=
| RPUSH (key value : string)
| HMSET (key : string) (mapping : list (string * field))
| TO_REDIS (msg : Message.t)
| SADD (key member : string)
| SREM (key member : string)
| DEL (key : string)
| INC_CLAIMED (key : string) (amount : Z).

Definition cmd_key (c : Cmd) : string :=
  match c with
  | RPUSH key _ | HMSET key _ | SADD key _ | SREM key _ | DEL key
  | INC_CLAIMED key _ => key
  | TO_REDIS msg => Message.id msg
  end.

Definition hmset_fields (mapping : list (string * field))
    (h : gmap string field) : gmap string field :=
  foldl (λ acc kv, <[kv.1 := kv.2]> acc) h mapping.

(** What a command writes.  DEL removes the key whatever it holds. *)
Definition write (c : Cmd) (s : Store) : Store :=
  match c with
  | RPUSH key value =>
      mkStore (sets s) (<[key := lrange s key ++ [value]]> (lists s))
              (hashes s) (messages s) (counters s) (stamps s)
  | HMSET key mapping =>
      mkStore (sets s) (lists s)
              (<[key := hmset_fields mapping (hgetall_claim s key)]> (hashes s))
              (messages s) (counters s) (stamps s)
  | TO_REDIS msg =>
      mkStore (sets s) (lists s) (hashes s)
              (<[Message.id msg := msg]> (messages s)) (counters s) (stamps s)
  | SADD key member =>
      mkStore (<[key := smembers s key ∪ {[member]}]> (sets s)) (lists s)
              (hashes s) (messages s) (counters s) (stamps s)
  | SREM key member =>
      mkStore (<[key := smembers s key ∖ {[member]}]> (sets s)) (lists s)
              (hashes s) (messages s) (counters s) (stamps s)
  | DEL key =>
      mkStore (delete key (sets s)) (delete key (lists s))
              (delete key (hashes s)) (delete key (messages s))
              (delete key (counters s)) (stamps s)
  | INC_CLAIMED key amount =>
      mkStore (sets s) (lists s) (hashes s) (messages s)
              (<[key := counter s key + amount]> (counters s)) (stamps s)
  end.

(** Every write to a key is a modification that a WATCH on that key sees;
    the stamp counts them. *)
Definition touch (key : string) (s : Store) : Store :=
  mkStore (sets s) (lists s) (hashes s) (messages s) (counters s)
          (<[key := S (stamp s key)]> (stamps s)).

Definition apply_cmd (s : Store) (c : Cmd) : Store :=
  touch (cmd_key c) (write c s).

(** MULTI ... EXEC: the staged commands, in order, with nothing in between. *)
Definition exec (pipe : list Cmd) (s : Store) : Store :=
  foldl apply_cmd s pipe.
Arguments exec : simpl never.

(** ** Exceptions, worlds and the client monad *)

(** Python values passed positionally to an exception: a string or [None]. *)
Inductive exn :=
| ClaimDoesNotExist (a b c : option string)
| ClaimConflict (queue : string) (project : option string)
| WatchError
| TypeError
| ValueError
| IndexError.

(** One entry per round trip to the server. *)
Inductive Event :=
| EvActive (queue : string) (project : option string) (limit : Z)
| EvSismember (key member : string)
| EvHmget (key : string) (fields : list string)
| EvLrange (key : string)
| EvHgetall (keys : list string)
| EvWatch (key : string)
| EvExec (pipe : list Cmd)
| EvAbort (pipe : list Cmd).

(** [log] has the latest round trip first. *)
Record World := mkWorld {
  redis : Store;
  ticks : nat;
  uuids : nat;
  log : list Event
}.

Inductive Result (A : Type) :=
| Ok (a : A) (w : World)
| Raise (e : exn) (w : World).
Arguments Ok {A} a w.
Arguments Raise {A} e w.

Definition M (A : Type) : Type := World → Result A.

Definition raise {A} (e : exn) : M A := λ w, Raise e w.

#[export] Instance M_ret : MRet M := λ A a w, Ok a w.
#[export] Instance M_bind : MBind M := λ A B k m w,
  match m w with
  | Ok a w' => k a w'
  | Raise e w' => Raise e w'
  end.

Definition world_of {A} (r : Result A) : World :=
  match r with Ok _ w | Raise _ w => w end.

(** ** What the controller is given *)

(** Code of other modules that the controller calls. *)
Class Collaborators := {
  (** what [Message.to_basic(now)] builds *)
  Basic : Type;
  to_basic : Message.t → Z → Basic;
  (** the message controller's [_active]: the messages it yields when it
      runs at time [now] against the store *)
  msg_active : Z → Store → string → option string → Z → list Message.t;
  (** [utils.scope_claims_set], [utils.scope_claim_messages] *)
  scope_claims_set : string → option string → string → string;
  scope_claim_messages : string → string → string;
  (** the queue controller's [_claim_counter_key] *)
  _claim_counter_key : string → option string → string
}.

(** What the process cannot control: the n-th reading of the clock
    ([timeutils.utcnow_ts]), the n-th identifier drawn
    ([utils.generate_uuid]) and what the other clients of the server do
    just before its n-th round trip. *)
Class Environment := {
  clock : nat → Z;
  uuid : nat → string;
  interference : nat → Store → Store
}.

Definition QUEUE_CLAIMS_SUFFIX : string := "claims".
Definition CLAIM_MESSAGES_SUFFIX : string := "messages".

Definition RETRY_CLAIM_TIMEOUT : Z := 10.

(** Python's [int] on a value read from a hash ([None] when the field or
    the hash is absent; the stored id is not a number). *)
Definition int (v : option field) : M Z :=
  match v with
  | Some (FInt n) => mret n
  | Some (FStr _) => raise ValueError
  | None => raise TypeError
  end.

Fixpoint mapM {A B} (f : A → M B) (l : list A) : M (list B) :=
  match l with
  | [] => mret []
  | a :: l => b ← f a; bs ← mapM f l; mret (b :: bs)
  end.

Definition _msg_would_expire (message : Message.t) (now : Z) : bool :=
  bool_decide (Message.expires message < now).

(** How an iteration of a [while] loop ends. *)
Inductive Flow (A : Type) :=
| Return (a : A)
| Continue.
Arguments Return {A} a.
Arguments Continue {A}.

(** [try: body except WatchError: handler] *)
Definition except_WatchError {A} (body handler : M A) : M A := λ w,
  match body w with
  | Raise WatchError w' => handler w'
  | r => r
  end.

Section Controller.
Context `{Collaborators} `{Environment}.

Definition utcnow_ts : M Z := λ w,
  Ok (clock (ticks w)) (mkWorld (redis w) (S (ticks w)) (uuids w) (log w)).

Definition generate_uuid : M string := λ w,
  Ok (uuid (uuids w)) (mkWorld (redis w) (ticks w) (S (uuids w)) (log w)).

(** One round trip: the other clients act, then the command runs. *)
Definition request {A} (ev : Event) (f : Store → A * Store) : M A := λ w,
  let s := interference (length (log w)) (redis w) in
  Ok (f s).1 (mkWorld (f s).2 (ticks w) (uuids w) (ev :: log w)).

Definition query {A} (ev : Event) (f : Store → A) : M A :=
  request ev (λ s, (f s, s)).

Definition sismember (key member : string) : M bool :=
  query (EvSismember key member) (λ s, bool_decide (member ∈ smembers s key)).

Definition hmget (key : string) (fields : list string)
    : M (list (option field)) :=
  query (EvHmget key fields) (λ s, (λ f, hgetall_claim s key !! f) <$> fields).

Definition _get_claimed_message_keys (claim_id : string) : M (list string) :=
  query (EvLrange claim_id) (λ s, lrange s claim_id).

(** A pipeline of HGETALL, one per key.  With nothing staged, [execute]
    returns the empty list without a round trip. *)
Definition pipeline_hgetall (keys : list string)
    : M (list (option Message.t)) :=
  match keys with
  | [] => mret []
  | _ => query (EvHgetall keys) (λ s, hgetall s <$> keys)
  end.

(** [pipe.watch(key)]: the server remembers the state of the key; the
    stamp read here stands for it. *)
Definition watch (key : string) : M nat :=
  query (EvWatch key) (λ s, stamp s key).

Definition unmodified (watching : option (string * nat)) (s : Store) : bool :=
  match watching with
  | None => true
  | Some (key, seen) => bool_decide (stamp s key = seen)
  end.

(** [pipe.execute()]: applies the staged commands atomically.  When a
    watched key was modified since WATCH the server applies nothing and
    the client raises WatchError. *)
Definition execute (watching : option (string * nat)) (pipe : list Cmd)
    : M unit := λ w,
  let s := interference (length (log w)) (redis w) in
  if unmodified watching s
  then Ok () (mkWorld (exec pipe s) (ticks w) (uuids w) (EvExec pipe :: log w))
  else Raise WatchError (mkWorld s (ticks w) (uuids w) (EvAbort pipe :: log w)).

(** Modelled from the spec: the message controller's [_active] is in
    another file.  It yields the active messages of the queue, up to
    [limit], judged at the time it runs; here it reads the clock once
    and makes one round trip. *)
Definition _active (queue : string) (project : option string) (limit : Z)
    : M (list Message.t) :=
  now ← utcnow_ts;
  query (EvActive queue project limit)
        (λ s, msg_active now s queue project limit).

(** Modelled from the spec: the queue controller's [_inc_claimed] is in
    another file.  It stages an adjustment of the counter that
    [_claim_counter_key] names. *)
Definition _inc_claimed (queue : string) (project : option string)
    (amount : Z) : Cmd :=
  INC_CLAIMED (_claim_counter_key queue project) amount.

(** *** [_get_claim_info] and [_exists] *)

Definition _get_claim_info (claim_id : string) (fields : list string)
    : M (list Z) :=
  values ← hmget claim_id fields;
  mapM int values.

Definition _exists (queue claim_id : string) (project : option string)
    : M bool :=
  let claims_set_key := scope_claims_set queue project QUEUE_CLAIMS_SUFFIX in
  member ← sismember claims_set_key claim_id;
  if negb member then mret false else
  info ← _get_claim_info claim_id ["e"];
  match info with
  | [] => raise IndexError
  | expires :: _ =>
      now ← utcnow_ts;
      if bool_decide (now > expires) then mret false else mret true
  end.

(** *** [get] *)

Record ClaimMeta := mkClaimMeta {
  meta_age : Z;
  meta_ttl : Z;
  meta_id : string
}.

Definition present (raw : list (option Message.t)) : list Message.t :=
  omap (λ msg, msg) raw.

Definition get (queue claim_id : string) (project : option string)
    : M (ClaimMeta * list Basic) :=
  found ← _exists queue claim_id project;
  if negb found
  then raise (ClaimDoesNotExist (Some queue) project (Some claim_id))
  else
  let claim_msgs_key := scope_claim_messages claim_id CLAIM_MESSAGES_SUFFIX in
  msg_keys ← _get_claimed_message_keys claim_msgs_key;
  raw_messages ← pipeline_hgetall msg_keys;
  now ← utcnow_ts;
  let basic_messages := (λ msg, to_basic msg now) <$> present raw_messages in
  now ← utcnow_ts;
  info ← _get_claim_info claim_id ["e"; "t"];
  match info with
  | [expires; ttl] =>
      let update_time := expires - ttl in
      let age := now - update_time in
      mret (mkClaimMeta age ttl claim_id, basic_messages)
  | _ => raise ValueError
  end.

(** *** [create] *)

(** The body of [for msg in msg_list]: bind the message to the claim,
    extend its life when it would end before the claim and its grace do. *)
Definition claim_message (claim_id : string)
    (claim_expires msg_ttl msg_expires : Z) (msg : Message.t) : Message.t :=
  let msg := Message.set_claim_id (Some claim_id) msg in
  let msg := Message.set_claim_expires claim_expires msg in
  if _msg_would_expire msg msg_expires
  then Message.set_expires msg_expires (Message.set_ttl msg_ttl msg)
  else msg.

Fixpoint stage_claim (claim_key claim_id : string)
    (claim_expires msg_ttl msg_expires now : Z) (msg_list : list Message.t)
    (pipe : list Cmd) (basic_messages : list Basic)
    : list Cmd * list Basic :=
  match msg_list with
  | [] => (pipe, basic_messages)
  | msg :: msg_list =>
      let msg := claim_message claim_id claim_expires msg_ttl msg_expires msg in
      let pipe := pipe ++ [RPUSH claim_key (Message.id msg)] in
      let pipe := pipe ++ [TO_REDIS msg] in
      let basic_messages := basic_messages ++ [to_basic msg now] in
      stage_claim claim_key claim_id claim_expires msg_ttl msg_expires now
                  msg_list pipe basic_messages
  end.

(** The body of the [while] loop. *)
Definition create_iteration (queue : string) (project : option string)
    (limit : Z) (claim_id claim_key claims_set_key counter_key : string)
    (ttl grace msg_ttl : Z) : M (Flow (option string * list Basic)) :=
  msg_list ← _active queue project limit;
  match msg_list with
  | [] => mret (Return (None, []))
  | _ =>
      except_WatchError
        (seen ← watch counter_key;
         now ← utcnow_ts;
         let claim_expires := now + ttl in
         let msg_expires := claim_expires + grace in
         let '(pipe, basic_messages) :=
           stage_claim claim_key claim_id claim_expires msg_ttl msg_expires
                       now msg_list [] [] in
         let claim_info :=
           [("id", FStr claim_id); ("t", FInt ttl); ("e", FInt claim_expires)] in
         let pipe := pipe ++ [HMSET claim_id claim_info] in
         let pipe := pipe ++ [SADD claims_set_key claim_id] in
         let pipe :=
           pipe ++ [_inc_claimed queue project (Z.of_nat (length msg_list))] in
         execute (Some (counter_key, seen)) pipe;;
         mret (Return (Some claim_id, basic_messages)))
        (mret Continue)
  end.

(** [while (utcnow_ts() - start_ts) < RETRY_CLAIM_TIMEOUT], then
    [raise ClaimConflict].  The loop may run for as long as the clock
    stands still and the commits fail, hence the fuel; [None] is a run
    that needs more of it. *)
Fixpoint create_loop (fuel : nat) (queue : string) (project : option string)
    (limit : Z) (claim_id claim_key claims_set_key counter_key : string)
    (ttl grace msg_ttl start_ts : Z) (w : World)
    : option (Result (option string * list Basic)) :=
  match fuel with
  | O => None
  | S fuel =>
      match utcnow_ts w with
      | Raise e w => Some (Raise e w)
      | Ok t w =>
          if bool_decide (t - start_ts < RETRY_CLAIM_TIMEOUT) then
            match create_iteration queue project limit claim_id claim_key
                    claims_set_key counter_key ttl grace msg_ttl w with
            | Raise e w => Some (Raise e w)
            | Ok (Return r) w => Some (Ok r w)
            | Ok Continue w =>
                create_loop fuel queue project limit claim_id claim_key
                  claims_set_key counter_key ttl grace msg_ttl start_ts w
            end
          else Some (Raise (ClaimConflict queue project) w)
      end
  end.

(** [metadata.get(name, 60)] *)
Definition metadata_get (metadata : gmap string Z) (name : string) : Z :=
  default 60 (metadata !! name).

Definition create (fuel : nat) (queue : string) (metadata : gmap string Z)
    (project : option string) (limit : Z) (w : World)
    : option (Result (option string * list Basic)) :=
  let ttl := metadata_get metadata "ttl" in
  let grace := metadata_get metadata "grace" in
  let msg_ttl := ttl + grace in
  match generate_uuid w with
  | Raise e w => Some (Raise e w)
  | Ok claim_id w =>
      let claim_key := scope_claim_messages claim_id CLAIM_MESSAGES_SUFFIX in
      let claims_set_key :=
        scope_claims_set queue project QUEUE_CLAIMS_SUFFIX in
      let counter_key := _claim_counter_key queue project in
      match utcnow_ts w with
      | Raise e w => Some (Raise e w)
      | Ok start_ts w =>
          create_loop fuel queue project limit claim_id claim_key
            claims_set_key counter_key ttl grace msg_ttl start_ts w
      end
  end.

(** *** [update] *)

Fixpoint stage_update (claim_id : string)
    (claim_expires msg_ttl msg_expires : Z)
    (claimed_msgs : list (option Message.t)) (pipe : list Cmd) : list Cmd :=
  match claimed_msgs with
  | [] => pipe
  | None :: claimed_msgs =>
      stage_update claim_id claim_expires msg_ttl msg_expires claimed_msgs pipe
  | Some msg :: claimed_msgs =>
      let msg := claim_message claim_id claim_expires msg_ttl msg_expires msg in
      stage_update claim_id claim_expires msg_ttl msg_expires claimed_msgs
                   (pipe ++ [TO_REDIS msg])
  end.

Definition update (queue claim_id : string) (metadata : gmap string Z)
    (project : option string) : M unit :=
  found ← _exists queue claim_id project;
  if negb found
  then raise (ClaimDoesNotExist (Some claim_id) (Some queue) project)
  else
  now ← utcnow_ts;
  let claim_ttl := metadata_get metadata "ttl" in
  let claim_expires := now + claim_ttl in
  let grace := metadata_get metadata "grace" in
  let msg_ttl := claim_ttl + grace in
  let msg_expires := claim_expires + grace in
  let claim_messages := scope_claim_messages claim_id CLAIM_MESSAGES_SUFFIX in
  msg_keys ← _get_claimed_message_keys claim_messages;
  claimed_msgs ← pipeline_hgetall msg_keys;
  let claim_info := [("t", FInt claim_ttl); ("e", FInt claim_expires)] in
  let pipe :=
    stage_update claim_id claim_expires msg_ttl msg_expires claimed_msgs [] in
  let pipe := pipe ++ [HMSET claim_id claim_info] in
  execute None pipe.

(** *** [delete] *)

Definition release_message (now : Z) (msg : Message.t) : Message.t :=
  Message.set_claim_expires now (Message.set_claim_id None msg).

Fixpoint stage_release (now : Z) (claimed_msgs : list (option Message.t))
    (pipe : list Cmd) : list Cmd :=
  match claimed_msgs with
  | [] => pipe
  | None :: claimed_msgs => stage_release now claimed_msgs pipe
  | Some msg :: claimed_msgs =>
      stage_release now claimed_msgs (pipe ++ [TO_REDIS (release_message now msg)])
  end.

Definition delete (queue claim_id : string) (project : option string)
    : M unit :=
  found ← _exists queue claim_id project;
  if negb found then mret () else
  now ← utcnow_ts;
  let claim_messages_key :=
    scope_claim_messages claim_id CLAIM_MESSAGES_SUFFIX in
  msg_keys ← _get_claimed_message_keys claim_messages_key;
  claimed_msgs ← pipeline_hgetall msg_keys;
  let claims_set_key := scope_claims_set queue project QUEUE_CLAIMS_SUFFIX in
  let pipe := [SREM claims_set_key claim_id] in
  let pipe := pipe ++ [DEL claim_id] in
  let pipe := pipe ++ [DEL claim_messages_key] in
  let pipe := stage_release now claimed_msgs pipe in
  let pipe :=
    pipe ++ [_inc_claimed queue project (-1 * Z.of_nat (length claimed_msgs))] in
  execute None pipe.

End Controller.

(** ** Observing a run *)

Definition value {A} (r : Result A) : option A :=
  match r with Ok a _ => Some a | Raise _ _ => None end.

Definition raised {A} (r : Result A) : option exn :=
  match r with Ok _ _ => None | Raise e _ => Some e end.

(** The messages a pipeline writes, in order. *)
Definition written (pipe : list Cmd) : list Message.t :=
  omap (λ c, match c with TO_REDIS msg => Some msg | _ => None end) pipe.

(** Every message record sits under its own id: [to_redis] is the only
    writer of message records and it writes under [msg.id]. *)
Definition messages_keyed_by_id (s : Store) : Prop :=
  ∀ key msg, messages s !! key = Some msg → Message.id msg = key.

(** The round trips that ask the server to write. *)
Definition is_write (ev : Event) : bool :=
  match ev with EvExec _ | EvAbort _ => true | _ => false end.

(** The existence check as the specification words it: the id is in the
    claims set and the stored [expires] is strictly greater than now. *)
Definition exists_as_specified (s : Store) (now : Z)
    (claims_set_key claim_id : string) : Prop :=
  claim_id ∈ smembers s claims_set_key ∧
  ∃ expires, hgetall_claim s claim_id !! "e" = Some (FInt expires) ∧ now < expires.

(** What binding a message to a claim means for the record that is
    written, [msg], given the record that was read, [prior]: it carries the
    claim's id and expiry, it lives at least until the claim's expiry plus
    grace, and its [expires] and [ttl] were overwritten exactly when the
    prior [expires] was below that. *)
Definition bound_and_extended (claim_id : string) (claim_expires ttl grace : Z)
    (prior msg : Message.t) : Prop :=
  Message.claim_id msg = Some claim_id ∧
  Message.claim_expires msg = claim_expires ∧
  claim_expires + grace ≤ Message.expires msg ∧
  (Message.expires prior < claim_expires + grace →
   Message.expires msg = claim_expires + grace ∧ Message.ttl msg = ttl + grace) ∧
  (¬ Message.expires prior < claim_expires + grace →
   Message.expires msg = Message.expires prior ∧
   Message.ttl msg = Message.ttl prior) ∧
  Message.id msg = Message.id prior ∧ Message.body msg = Message.body prior.

(** ** Words for the statements *)

Definition is_DEL (c : Cmd) : bool :=
  match c with DEL _ => true | _ => false end.

Definition is_TO_REDIS (c : Cmd) : bool :=
  match c with TO_REDIS _ => true | _ => false end.

Section Vocabulary.
Context `{Collaborators} `{Environment}.

(** No other client writes to the server. *)
Definition Quiet : Prop := ∀ n s, interference n s = s.

(** A later reading of the clock is never an earlier time. *)
Definition Monotone : Prop := ∀ m n, (m ≤ n)%nat → clock m ≤ clock n.

Definition claims_set_key (queue : string) (project : option string) : string :=
  scope_claims_set queue project QUEUE_CLAIMS_SUFFIX.

Definition claim_messages_key (claim_id : string) : string :=
  scope_claim_messages claim_id CLAIM_MESSAGES_SUFFIX.

(** The world after a round trip that changed nothing. *)
Definition asked (ev : Event) (w : World) : World :=
  mkWorld (redis w) (ticks w) (uuids w) (ev :: log w).

Definition ticked (w : World) : World :=
  mkWorld (redis w) (S (ticks w)) (uuids w) (log w).

(** The world after a pipeline of HGETALL. *)
Definition fetched (keys : list string) (w : World) : World :=
  match keys with
  | [] => w
  | _ => asked (EvHgetall keys) w
  end.

(** The world [_exists] leaves when it went as far as reading the clock. *)
Definition checked (queue claim_id : string) (project : option string)
    (w : World) : World :=
  ticked (asked (EvHmget claim_id ["e"])
           (asked (EvSismember (claims_set_key queue project) claim_id) w)).

(** What [delete] stages for a claim it found. *)
Definition delete_pipe (queue claim_id : string) (project : option string)
    (now : Z) (s : Store) : list Cmd :=
  let msg_keys := lrange s (claim_messages_key claim_id) in
  ([SREM (claims_set_key queue project) claim_id; DEL claim_id;
    DEL (claim_messages_key claim_id)]
   ++ (TO_REDIS ∘ release_message now <$> omap (hgetall s) msg_keys))
  ++ [INC_CLAIMED (_claim_counter_key queue project)
                  (-1 * Z.of_nat (length msg_keys))].

(** The two halves of [delete_pipe] before the counter: what is dropped,
    and the messages written back. *)
Definition delete_dropped (queue claim_id : string) (project : option string)
    (s : Store) : Store :=
  exec [SREM (claims_set_key queue project) claim_id; DEL claim_id;
        DEL (claim_messages_key claim_id)] s.

Definition delete_releases (claim_id : string) (now : Z) (s : Store)
    : list Cmd :=
  TO_REDIS ∘ release_message now <$>
    omap (hgetall s) (lrange s (claim_messages_key claim_id)).

(** What [update] stages for a claim it found. *)
Definition update_pipe (claim_id : string) (claim_ttl grace now : Z)
    (s : Store) : list Cmd :=
  let msg_keys := lrange s (claim_messages_key claim_id) in
  (TO_REDIS ∘ claim_message claim_id (now + claim_ttl) (claim_ttl + grace)
                            (now + claim_ttl + grace)
     <$> omap (hgetall s) msg_keys)
  ++ [HMSET claim_id [("t", FInt claim_ttl); ("e", FInt (now + claim_ttl))]].

Definition claim_commands (claim_key claim_id : string)
    (claim_expires msg_ttl msg_expires : Z) (msg : Message.t) : list Cmd :=
  let msg := claim_message claim_id claim_expires msg_ttl msg_expires msg in
  [RPUSH claim_key (Message.id msg); TO_REDIS msg].

(** What an iteration of [create] stages for the batch it read. *)
Definition create_pipe (queue : string) (project : option string)
    (claim_id claim_key claims_set_key : string) (ttl grace now : Z)
    (msg_list : list Message.t) : list Cmd :=
  ((mbind (claim_commands claim_key claim_id (now + ttl) (ttl + grace)
                          (now + ttl + grace)) msg_list
    ++ [HMSET claim_id [("id", FStr claim_id); ("t", FInt ttl);
                        ("e", FInt (now + ttl))]])
   ++ [SADD claims_set_key claim_id])
  ++ [_inc_claimed queue project (Z.of_nat (length msg_list))].

Section Loop.
Variables (queue : string) (project : option string) (limit : Z).
Variables (claim_id : string) (ttl grace start_ts : Z).

(** The body of the loop and the loop of [create], with the keys [create]
    computes before it enters the loop. *)
Definition iteration : M (Flow (option string * list Basic)) :=
  create_iteration queue project limit claim_id
    (claim_messages_key claim_id) (claims_set_key queue project)
    (_claim_counter_key queue project) ttl grace (ttl + grace).

Definition loop (fuel : nat) : World → option (Result (option string * list Basic)) :=
  create_loop fuel queue project limit claim_id
    (claim_messages_key claim_id) (claims_set_key queue project)
    (_claim_counter_key queue project) ttl grace (ttl + grace) start_ts.

(** One turn of the loop that ends in [continue]: the test passed and
    the commit failed. *)
Definition retried (w w' : World) : Prop :=
  clock (ticks w) - start_ts < RETRY_CLAIM_TIMEOUT ∧
  iteration (ticked w) = Ok Continue w'.
End Loop.

End Vocabulary.

(** The round trips in which the server applied a pipeline. *)
Definition is_commit (ev : Event) : bool :=
  match ev with EvExec _ => true | _ => false end.

(** How many pipelines of a log the server applied. *)
Definition commits (evs : list Event) : nat :=
  length (filter (λ ev, is_commit ev = true) evs).

Section ReadOnly.
Context `{Environment}.

(** A computation that only asks: whatever the world and the outcome, the
    round trips it adds to the log are no writes, and with no other client
    at work the store it leaves is the store it found. *)
Definition reads_only {A} (m : M A) : Prop :=
  ∀ w, ∃ reads,
    log (world_of (m w)) = reads ++ log w ∧
    Forall (λ ev, is_write ev = false) reads ∧
    (Quiet → redis (world_of (m w)) = redis w).
End ReadOnly.

Section Outcome.
Context `{Collaborators}.

(** 1 for a run of [create] that returned a claim id, 0 for any other. *)
Definition committed (r : Result (option string * list Basic)) : nat :=
  match r with
  | Ok (Some _, _) _ => 1
  | _ => 0
  end.

(** The total length of the message lists of the ids in the claims set of
    a queue. *)
Definition listed (s : Store) (queue : string) (project : option string) : nat :=
  sum_list_with (λ claim_id, length (lrange s (claim_messages_key claim_id)))
                (elements (smembers s (claims_set_key queue project))).

(** The claimed counter of a queue says how many message ids the claims of
    its claims set list. *)
Definition counter_matches_lists (s : Store) (queue : string)
    (project : option string) : Prop :=
  counter s (_claim_counter_key queue project) = Z.of_nat (listed s queue project).
End Outcome.

(** ** A queue, its clients and their clocks

    The scenario of the specification: queue [fizbit] of project [480924]
    with two messages posted at time 100 with [ttl = 30]. *)

Module Scenario.

(** Modelled from the spec: a message is active iff [now < expires] and
    its [claim_id] is absent or [now >= claim_expires]. *)
Definition is_active (now : Z) (msg : Message.t) : bool :=
  bool_decide (now < Message.expires msg) &&
  match Message.claim_id msg with
  | None => true
  | Some _ => bool_decide (Message.claim_expires msg ≤ now)
  end.

(** The ids posted to the queue, in insertion order. *)
Definition posted : list string := ["m1"; "m2"].

Definition scope (project : option string) (queue : string) : string :=
  default "" project +:+ "." +:+ queue.

(** Modelled from the spec: the message view yields up to [limit] active
    messages in insertion order; the keys are those of the keyspace table
    of the specification. *)
#[export] Instance collaborators : Collaborators := {|
  Basic := Message.t * Z;
  to_basic := λ msg now, (msg, now);
  msg_active := λ now s queue project limit,
    take (Z.to_nat limit)
         (filter (λ msg, is_active now msg = true) (omap (hgetall s) posted));
  scope_claims_set := λ queue project suffix,
    scope project queue +:+ "." +:+ suffix;
  scope_claim_messages := λ claim_id suffix, claim_id +:+ "." +:+ suffix;
  _claim_counter_key := λ queue project, scope project queue +:+ ".claimed"
|}.

Definition noon : Z := 100.

(** A single client; every call happens within the same second. *)
Definition still : Environment := {|
  clock := λ _, noon;
  uuid := λ _, "c0";
  interference := λ _ s, s
|}.

(** A single client; a second passes between two readings of the clock. *)
Definition ticking : Environment := {|
  clock := λ n, noon + Z.of_nat n;
  uuid := λ _, "c0";
  interference := λ _ s, s
|}.

Definition message (id : string) : Message.t :=
  Message.mk id "{}" 30 130 None 0.

Definition fresh : Store :=
  mkStore ∅ ∅ ∅ (list_to_map [("m1", message "m1"); ("m2", message "m2")])
          ∅ ∅.

Definition drained : Store := mkStore ∅ ∅ ∅ ∅ ∅ ∅.

Definition project : option string := Some "480924".
Definition counter_key : string := "480924.fizbit.claimed".

Definition start (s : Store) : World := mkWorld s 0 0 [].

Definition after {A} (r : option (Result A)) : World :=
  match r with Some r => world_of r | None => start drained end.

Definition answer {A} (r : option (Result A)) : option A :=
  r ≫= value.

Definition ttl_is (ttl : Z) : gmap string Z := {["ttl" := ttl]}.

(** Another worker, which claims whatever is active when it runs. *)
Definition rival : Environment := {|
  clock := λ _, noon;
  uuid := λ _, "rival";
  interference := λ _ s, s
|}.

Definition rival_creates (s : Store) : Store :=
  redis (after (@create collaborators rival 1 "fizbit" ∅ project 5 (start s))).

(** The rival's [create] lands just before our round trip number [trip]. *)
Definition race (trip : nat) : Environment := {|
  clock := λ _, noon;
  uuid := λ _, "c0";
  interference := λ n s, if decide (n = trip) then rival_creates s else s
|}.

(** Other clients modify the counter before each of our round trips, and
    four seconds pass between two readings of the clock. *)
Definition contended : Environment := {|
  clock := λ n, noon + 4 * Z.of_nat n;
  uuid := λ _, "c0";
  interference := λ _ s, touch counter_key s
|}.

(** The world after a first [create] with the default [ttl] and [grace]
    of 60, and after one with [ttl = 0]. *)
Definition claimed : World :=
  after (@create collaborators still 1 "fizbit" ∅ project 5 (start fresh)).

Definition claimed_for_0 : World :=
  after (@create collaborators still 1 "fizbit" (ttl_is 0) project 5
           (start fresh)).

(** The first claim, after the message [m2] was deleted on its own. *)
Definition half_gone : World :=
  mkWorld (exec [DEL "m2"] (redis claimed)) (ticks claimed) (uuids claimed)
          (log claimed).

(** The first claim, after its record was removed on its own: the id is
    still in the claims set. *)
Definition orphaned : World :=
  mkWorld (exec [DEL "c0"] (redis claimed)) (ticks claimed) (uuids claimed)
          (log claimed).

(** The store the race left: the claims [c0] and [rival] both list [m1]
    and [m2]. *)
Definition raced : World :=
  start (redis (after (@create collaborators (race 1) 1 "fizbit" ∅ project 5
                         (start fresh)))).

End Scenario.

(** ** The server: what a pipeline leaves behind *)

Lemma exec_app pipe1 pipe2 s : exec (pipe1 ++ pipe2) s = exec pipe2 (exec pipe1 s).
Proof. apply foldl_app. Qed.

Lemma exec_snoc pipe c s : exec (pipe ++ [c]) s = apply_cmd (exec pipe s) c.
Proof. by rewrite exec_app. Qed.

Lemma written_app pipe1 pipe2 : written (pipe1 ++ pipe2) = written pipe1 ++ written pipe2.
Proof. apply omap_app. Qed.

Lemma elem_of_written msg pipe : msg ∈ written pipe ↔ TO_REDIS msg ∈ pipe.
Proof.
  unfold written. rewrite list_elem_of_omap. split.
  - intros (c & Hc & Hm). destruct c; simplify_eq. done.
  - intros Hc. by exists (TO_REDIS msg).
Qed.

(** Without a DEL in the pipeline, a message the pipeline writes is in the
    store afterwards, as the pipeline last wrote it. *)
Lemma messages_exec_written pipe s msg :
  Forall (λ c, is_DEL c = false) pipe →
  msg ∈ written pipe →
  ∃ msg', msg' ∈ written pipe ∧ Message.id msg' = Message.id msg ∧
          messages (exec pipe s) !! Message.id msg = Some msg'.
Proof.
  induction pipe as [|c pipe IH] using rev_ind; intros Hdel Hin.
  - by apply elem_of_nil in Hin.
  - apply Forall_app in Hdel as [Hdel Hc]. rewrite Forall_singleton in Hc.
    rewrite exec_snoc. rewrite written_app in Hin |- *.
    destruct (decide (cmd_key c = Message.id msg ∧ is_TO_REDIS c = true))
      as [[Hk Ht]|Hne].
    + destruct c; try discriminate. simpl in Hk.
      exists msg0. split_and!; [|done|].
      { apply elem_of_app. right. by apply list_elem_of_singleton. }
      simpl. rewrite <- Hk. apply lookup_insert_eq.
    + assert (msg ∈ written pipe) as Hin'.
      { apply elem_of_app in Hin as [Hin|Hin]; [done|].
        apply elem_of_written in Hin. apply list_elem_of_singleton in Hin.
        subst c. simpl in Hne. by destruct Hne. }
      destruct (IH Hdel Hin') as (msg' & Hw & Hid & Hl).
      exists msg'. split_and!; [|done|].
      { apply elem_of_app. by left. }
      destruct c; simpl in *; try done.
      rewrite lookup_insert_ne; [done|]. intros Hk. by destruct Hne.
Qed.

(** A pipeline that writes no message and deletes nothing leaves the
    message records alone. *)
Lemma messages_exec_other pipe s :
  Forall (λ c, is_DEL c = false ∧ is_TO_REDIS c = false) pipe →
  messages (exec pipe s) = messages s.
Proof.
  induction pipe as [|c pipe IH] using rev_ind; intros Hp; [done|].
  apply Forall_app in Hp as [Hp Hc]. rewrite Forall_singleton in Hc.
  destruct Hc as [??].
  rewrite exec_snoc. destruct c; simpl in *; try done; by apply IH.
Qed.

(** A pipeline that only writes messages leaves every other family alone. *)
Lemma exec_messages_only pipe s :
  Forall (λ c, is_TO_REDIS c = true) pipe →
  sets (exec pipe s) = sets s ∧ lists (exec pipe s) = lists s ∧
  hashes (exec pipe s) = hashes s ∧ counters (exec pipe s) = counters s.
Proof.
  induction pipe as [|c pipe IH] using rev_ind; intros Hp; [done|].
  apply Forall_app in Hp as [Hp Hc]. rewrite Forall_singleton in Hc.
  rewrite exec_snoc. destruct c; simpl in *; try done; by apply IH.
Qed.

Lemma Forall_TO_REDIS (f : Message.t → Message.t) msgs :
  Forall (λ c, is_TO_REDIS c = true) (TO_REDIS ∘ f <$> msgs).
Proof. apply Forall_fmap, Forall_true. done. Qed.

Lemma written_TO_REDIS (f : Message.t → Message.t) msgs :
  written (TO_REDIS ∘ f <$> msgs) = f <$> msgs.
Proof.
  induction msgs as [|m msgs IH]; [done|].
  rewrite !fmap_cons. change (written (?c :: ?p)) with
    (match c with TO_REDIS msg => msg :: written p | _ => written p end).
  simpl. by rewrite IH.
Qed.

(** ** The controller *)

Section Properties.
Context `{Collaborators} `{Environment}.

Lemma query_quiet {A} ev (f : Store → A) w :
  Quiet → query ev f w = Ok (f (redis w)) (asked ev w).
Proof. intros HQ. unfold query, request, asked. simpl. by rewrite HQ. Qed.

Lemma pipeline_hgetall_quiet keys w :
  Quiet → pipeline_hgetall keys w = Ok (hgetall (redis w) <$> keys) (fetched keys w).
Proof.
  intros HQ. destruct keys as [|k keys]; [done|].
  unfold pipeline_hgetall, fetched. by rewrite query_quiet.
Qed.

Lemma redis_fetched keys w : redis (fetched keys w) = redis w.
Proof. by destruct keys. Qed.

Lemma ticks_fetched keys w : ticks (fetched keys w) = ticks w.
Proof. by destruct keys. Qed.

Lemma uuids_fetched keys w : uuids (fetched keys w) = uuids w.
Proof. by destruct keys. Qed.

(** [_exists], step by step, when no one interferes. *)
Lemma _exists_quiet queue claim_id project w :
  Quiet →
  _exists queue claim_id project w =
    let w1 := asked (EvSismember (claims_set_key queue project) claim_id) w in
    if bool_decide (claim_id ∈ smembers (redis w) (claims_set_key queue project))
    then
      let w2 := asked (EvHmget claim_id ["e"]) w1 in
      match hgetall_claim (redis w) claim_id !! "e" with
      | Some (FInt expires) =>
          Ok (negb (bool_decide (clock (ticks w) > expires))) (ticked w2)
      | Some (FStr _) => Raise ValueError w2
      | None => Raise TypeError w2
      end
    else Ok false w1.
Proof.
  intros HQ. unfold _exists, sismember, _get_claim_info, hmget.
  unfold mbind, M_bind. rewrite !query_quiet by done. fold (claims_set_key queue project).
  case_bool_decide; simpl; [|done]. rewrite HQ.
  destruct (hgetall_claim (redis w) claim_id !! "e") as [[e|?]|]; simpl; try done.
  by case_bool_decide.
Qed.

Lemma value_Some {A} (r : Result A) a :
  value r = Some a → ∃ w', r = Ok a w'.
Proof. destruct r; simpl; intros; simplify_eq; eauto. Qed.

Lemma raised_Some {A} (r : Result A) e :
  raised r = Some e → ∃ w', r = Raise e w'.
Proof. destruct r; simpl; intros; simplify_eq; eauto. Qed.

Lemma _exists_true queue claim_id project w :
  Quiet →
  value (_exists queue claim_id project w) = Some true →
  _exists queue claim_id project w = Ok true (checked queue claim_id project w) ∧
  claim_id ∈ smembers (redis w) (claims_set_key queue project) ∧
  ∃ expires, hgetall_claim (redis w) claim_id !! "e" = Some (FInt expires) ∧
             clock (ticks w) ≤ expires.
Proof.
  intros HQ. rewrite _exists_quiet by done. simpl.
  case_bool_decide as Hm; [|done].
  destruct (hgetall_claim (redis w) claim_id !! "e") as [[e|?]|]; try done.
  case_bool_decide as Hnow; [done|]. intros _.
  split_and!; [done..|]. exists e. split; [done|lia].
Qed.

Lemma _exists_false queue claim_id project w :
  Quiet →
  value (_exists queue claim_id project w) = Some false →
  ∃ w' reads, _exists queue claim_id project w = Ok false w' ∧
              redis w' = redis w ∧ (ticks w ≤ ticks w')%nat ∧
              log w' = reads ++ log w ∧ Forall (λ ev, is_write ev = false) reads.
Proof.
  intros HQ. rewrite _exists_quiet by done. simpl.
  case_bool_decide as Hm.
  - destruct (hgetall_claim (redis w) claim_id !! "e") as [[e|?]|]; try done.
    case_bool_decide; [|done]. intros _.
    eexists _, [_; _]. split_and!; [done..|simpl; lia|done|by repeat constructor].
  - intros _. eexists _, [_]. split_and!; [done..|by repeat constructor].
Qed.

Lemma _exists_not_member queue claim_id project w :
  Quiet →
  claim_id ∉ smembers (redis w) (claims_set_key queue project) →
  value (_exists queue claim_id project w) = Some false.
Proof. intros HQ Hm. rewrite _exists_quiet by done. simpl. by case_bool_decide. Qed.

Lemma _exists_past queue claim_id project w expires :
  Quiet →
  hgetall_claim (redis w) claim_id !! "e" = Some (FInt expires) →
  expires < clock (ticks w) →
  value (_exists queue claim_id project w) = Some false.
Proof.
  intros HQ He Hnow. rewrite _exists_quiet by done. simpl.
  case_bool_decide; [|done]. rewrite He. simpl. case_bool_decide; [done|lia].
Qed.

Lemma present_hgetall s keys : present (hgetall s <$> keys) = omap (hgetall s) keys.
Proof.
  unfold present. induction keys as [|k keys IH]; [done|].
  rewrite fmap_cons. change (omap ?f (?x :: ?l)) with
    (match f x with Some y => y :: omap f l | None => omap f l end).
  destruct (hgetall s k); by rewrite IH.
Qed.

(** *** [get] *)

Lemma get_found queue claim_id project w expires ttl :
  Quiet →
  value (_exists queue claim_id project w) = Some true →
  hgetall_claim (redis w) claim_id !! "e" = Some (FInt expires) →
  hgetall_claim (redis w) claim_id !! "t" = Some (FInt ttl) →
  value (get queue claim_id project w) =
    Some (mkClaimMeta (clock (ticks w + 2) - (expires - ttl)) ttl claim_id,
          (λ msg, to_basic msg (clock (ticks w + 1))) <$>
            omap (hgetall (redis w))
                 (lrange (redis w) (claim_messages_key claim_id))) ∧
  redis (world_of (get queue claim_id project w)) = redis w.
Proof.
  intros HQ Hex He Ht.
  destruct (_exists_true _ _ _ _ HQ Hex) as (Hrun & _ & _).
  unfold get, mbind, M_bind. rewrite Hrun. simpl. rewrite !HQ.
  fold (claim_messages_key claim_id).
  rewrite pipeline_hgetall_quiet by done.
  unfold _get_claim_info, hmget, mbind, M_bind.
  rewrite query_quiet by done. simpl.
  rewrite !redis_fetched, !ticks_fetched. simpl. rewrite He, Ht. simpl.
  rewrite present_hgetall.
  by replace (ticks w + 2)%nat with (S (S (ticks w))) by lia;
     replace (ticks w + 1)%nat with (S (ticks w)) by lia.
Qed.

Lemma get_not_found queue claim_id project w :
  Quiet →
  value (_exists queue claim_id project w) = Some false →
  raised (get queue claim_id project w) =
    Some (ClaimDoesNotExist (Some queue) project (Some claim_id)) ∧
  redis (world_of (get queue claim_id project w)) = redis w.
Proof.
  intros HQ Hex.
  destruct (_exists_false _ _ _ _ HQ Hex) as (w' & reads & Hrun & Hs & _).
  unfold get, mbind, M_bind. rewrite Hrun. by simpl.
Qed.

(** C8: on an existing claim, [get] returns the claim id, the stored ttl
    and [age = now - (expires - ttl)] from the stored claim record, with
    the messages of the claim's id list that still materialise, the
    empty ones dropped; when the existence check says no, it raises
    ClaimDoesNotExist.  It writes nothing. *)
Theorem get_meta_and_present_messages queue claim_id project w :
  Quiet →
  (∀ expires ttl,
     value (_exists queue claim_id project w) = Some true →
     hgetall_claim (redis w) claim_id !! "e" = Some (FInt expires) →
     hgetall_claim (redis w) claim_id !! "t" = Some (FInt ttl) →
     value (get queue claim_id project w) =
       Some (mkClaimMeta (clock (ticks w + 2) - (expires - ttl)) ttl claim_id,
             (λ msg, to_basic msg (clock (ticks w + 1))) <$>
               omap (hgetall (redis w))
                    (lrange (redis w) (claim_messages_key claim_id))) ∧
     redis (world_of (get queue claim_id project w)) = redis w) ∧
  (value (_exists queue claim_id project w) = Some false →
   raised (get queue claim_id project w) =
     Some (ClaimDoesNotExist (Some queue) project (Some claim_id)) ∧
   redis (world_of (get queue claim_id project w)) = redis w).
Proof.
  intros HQ. split.
  - intros expires ttl. by apply get_found.
  - by apply get_not_found.
Qed.

(** *** [delete] *)

Lemma stage_release_app now claimed pipe :
  stage_release now claimed pipe =
    pipe ++ (TO_REDIS ∘ release_message now <$> present claimed).
Proof.
  revert pipe. induction claimed as [|[msg|] claimed IH]; intros pipe; simpl.
  - by rewrite app_nil_r.
  - rewrite IH. unfold present. simpl. by rewrite <- app_assoc.
  - by rewrite IH.
Qed.

Lemma delete_found queue claim_id project w :
  Quiet →
  value (_exists queue claim_id project w) = Some true →
  let now := clock (ticks w + 1) in
  let pipe := delete_pipe queue claim_id project now (redis w) in
  let msg_keys := lrange (redis w) (claim_messages_key claim_id) in
  delete queue claim_id project w =
    Ok () (mkWorld (exec pipe (redis w)) (ticks w + 2) (uuids w)
             (EvExec pipe ::
              log (fetched msg_keys
                     (asked (EvLrange (claim_messages_key claim_id))
                            (ticked (checked queue claim_id project w)))))).
Proof.
  intros HQ Hex. destruct (_exists_true _ _ _ _ HQ Hex) as (Hrun & _ & _).
  unfold delete, mbind, M_bind. rewrite Hrun. simpl. rewrite !HQ.
  fold (claim_messages_key claim_id) (claims_set_key queue project).
  rewrite pipeline_hgetall_quiet by done. unfold execute. simpl.
  rewrite !redis_fetched, !ticks_fetched, !uuids_fetched. simpl. rewrite HQ.
  rewrite stage_release_app, present_hgetall, length_fmap.
  unfold delete_pipe, _inc_claimed.
  replace (ticks w + 1)%nat with (S (ticks w)) by lia.
  replace (ticks w + 2)%nat with (S (S (ticks w))) by lia.
  done.
Qed.

Lemma delete_not_found queue claim_id project w :
  Quiet →
  value (_exists queue claim_id project w) = Some false →
  ∃ w' reads, delete queue claim_id project w = Ok () w' ∧
              redis w' = redis w ∧ (ticks w ≤ ticks w')%nat ∧
              log w' = reads ++ log w ∧ Forall (λ ev, is_write ev = false) reads.
Proof.
  intros HQ Hex.
  destruct (_exists_false _ _ _ _ HQ Hex) as (w' & reads & Hrun & Hrest).
  exists w', reads. unfold delete, mbind, M_bind. by rewrite Hrun.
Qed.

Section DeletePipe.
Variables (queue claim_id : string) (project : option string) (now : Z).
Variable s : Store.

Local Abbreviation s' := (exec (delete_pipe queue claim_id project now s) s).
Local Abbreviation dropped := (delete_dropped queue claim_id project s).
Local Abbreviation releases := (delete_releases claim_id now s).

Lemma delete_pipe_split :
  s' = apply_cmd (exec releases dropped)
         (INC_CLAIMED (_claim_counter_key queue project)
            (-1 * Z.of_nat (length (lrange s (claim_messages_key claim_id))))).
Proof. unfold delete_pipe. by rewrite exec_snoc, exec_app. Qed.

Lemma delete_pipe_set : claim_id ∉ smembers s' (claims_set_key queue project).
Proof.
  rewrite delete_pipe_split. unfold smembers. simpl.
  destruct (exec_messages_only releases dropped) as (-> & _).
  { apply Forall_TO_REDIS. }
  unfold delete_dropped, exec. simpl. rewrite !lookup_delete.
  repeat case_decide; simpl; try apply not_elem_of_empty.
  rewrite lookup_insert_eq. simpl.
  intros [_ Hn]%elem_of_difference. apply Hn. by apply elem_of_singleton.
Qed.

Lemma delete_pipe_hash : hashes s' !! claim_id = None.
Proof.
  rewrite delete_pipe_split. simpl.
  destruct (exec_messages_only releases dropped) as (_ & _ & -> & _).
  { apply Forall_TO_REDIS. }
  unfold delete_dropped, exec. simpl. rewrite !lookup_delete.
  by repeat case_decide.
Qed.

Lemma delete_pipe_list : lists s' !! claim_messages_key claim_id = None.
Proof.
  rewrite delete_pipe_split. simpl.
  destruct (exec_messages_only releases dropped) as (_ & -> & _).
  { apply Forall_TO_REDIS. }
  unfold delete_dropped, exec. simpl. by rewrite lookup_delete_eq.
Qed.

Lemma delete_pipe_counter :
  claim_id ≠ _claim_counter_key queue project →
  claim_messages_key claim_id ≠ _claim_counter_key queue project →
  counter s' (_claim_counter_key queue project) =
    counter s (_claim_counter_key queue project)
    - Z.of_nat (length (lrange s (claim_messages_key claim_id))).
Proof.
  intros Hc Hl. rewrite delete_pipe_split. unfold counter at 1. simpl.
  rewrite lookup_insert_eq. simpl. unfold counter.
  destruct (exec_messages_only releases dropped) as (_ & _ & _ & ->).
  { apply Forall_TO_REDIS. }
  unfold delete_dropped, exec. simpl. rewrite !lookup_delete_ne by done. lia.
Qed.

Lemma delete_pipe_message key msg :
  messages_keyed_by_id s →
  key ∈ lrange s (claim_messages_key claim_id) →
  hgetall s key = Some msg →
  hgetall s' key = Some (release_message now msg).
Proof.
  intros Hwf Hkey Hmsg. unfold delete_pipe.
  rewrite <- app_assoc, exec_app. fold (delete_dropped queue claim_id project s).
  fold (delete_releases claim_id now s).
  assert (release_message now msg ∈ written (releases ++
            [INC_CLAIMED (_claim_counter_key queue project)
               (-1 * Z.of_nat (length (lrange s (claim_messages_key claim_id))))]))
    as Hin.
  { rewrite written_app. apply elem_of_app. left. unfold delete_releases.
    rewrite written_TO_REDIS. apply list_elem_of_fmap. exists msg.
    split; [done|]. apply list_elem_of_omap. eauto. }
  eapply (messages_exec_written _ dropped) in Hin as (msg' & Hin & Hid & Hl).
  - rewrite written_app in Hin. unfold delete_releases in Hin.
    rewrite written_TO_REDIS in Hin. simpl in Hin. rewrite app_nil_r in Hin.
    apply list_elem_of_fmap in Hin as (msg0 & -> & Hin).
    apply list_elem_of_omap in Hin as (key0 & _ & Hmsg0).
    simpl in Hid, Hl. rewrite (Hwf _ _ Hmsg) in Hl, Hid.
    rewrite (Hwf _ _ Hmsg0) in Hid. subst key0.
    unfold hgetall in *. rewrite Hl. congruence.
  - apply Forall_app. split; [|by repeat constructor].
    unfold delete_releases. apply Forall_fmap, Forall_true. done.
Qed.
End DeletePipe.

(** C7 (amended): when [delete] finds the claim, one atomic batch removes
    the claim id from the claims set, deletes the claim record and the
    claim's message list, gives every message of the list that is still
    in the store [claim_id = None] and [claim_expires = now], and
    decrements the claimed counter by the length of the claim's message
    id list: a message deleted in the meantime is still counted. *)
Theorem delete_releases_claim queue claim_id project w :
  Quiet →
  messages_keyed_by_id (redis w) →
  claim_id ≠ _claim_counter_key queue project →
  claim_messages_key claim_id ≠ _claim_counter_key queue project →
  value (_exists queue claim_id project w) = Some true →
  let now := clock (ticks w + 1) in
  let msg_keys := lrange (redis w) (claim_messages_key claim_id) in
  ∃ pipe reads w',
    delete queue claim_id project w = Ok () w' ∧
    log w' = EvExec pipe :: reads ++ log w ∧
    Forall (λ ev, is_write ev = false) reads ∧
    redis w' = exec pipe (redis w) ∧
    (claim_id ∉ smembers (redis w') (claims_set_key queue project)) ∧
    hashes (redis w') !! claim_id = None ∧
    lists (redis w') !! claim_messages_key claim_id = None ∧
    (∀ key msg,
       key ∈ msg_keys → hgetall (redis w) key = Some msg →
       hgetall (redis w') key =
         Some (Message.mk (Message.id msg) (Message.body msg) (Message.ttl msg)
                          (Message.expires msg) None now)) ∧
    counter (redis w') (_claim_counter_key queue project) =
      counter (redis w) (_claim_counter_key queue project)
      - Z.of_nat (length msg_keys).
Proof.
  intros HQ Hwf Hc Hl Hex now msg_keys.
  pose proof (delete_found _ _ _ _ HQ Hex) as Hrun. simpl in Hrun.
  eexists _, _, _. split; [exact Hrun|]. simpl. split_and!.
  - instantiate (1 := log (fetched msg_keys
      (asked (EvLrange (claim_messages_key claim_id))
         (ticked (asked (EvHmget claim_id ["e"])
            (asked (EvSismember (claims_set_key queue project) claim_id)
               (mkWorld (redis w) (ticks w) (uuids w) []))))))).
    unfold msg_keys. by destruct (lrange (redis w) (claim_messages_key claim_id)).
  - unfold msg_keys.
    destruct (lrange (redis w) (claim_messages_key claim_id)); by repeat constructor.
  - done.
  - apply delete_pipe_set.
  - apply delete_pipe_hash.
  - apply delete_pipe_list.
  - intros key msg Hkey Hmsg.
    by apply (delete_pipe_message queue claim_id project now (redis w) key msg).
  - by apply delete_pipe_counter.
Qed.

(** C10 (amended): when the claim id is not in the claims set, or the
    stored expiry is strictly in the past ([now > expires]), [delete]
    returns without asking the server to write anything: the claims set,
    the claim record, the claim's message list, the messages and the
    claimed counter are as they were. *)
Theorem delete_of_absent_claim_writes_nothing queue claim_id project w :
  Quiet →
  ((claim_id ∉ smembers (redis w) (claims_set_key queue project)) ∨
   ∃ expires, hgetall_claim (redis w) claim_id !! "e" = Some (FInt expires) ∧
              expires < clock (ticks w)) →
  ∃ w' reads,
    delete queue claim_id project w = Ok () w' ∧
    redis w' = redis w ∧
    log w' = reads ++ log w ∧ Forall (λ ev, is_write ev = false) reads.
Proof.
  intros HQ Habsent.
  assert (value (_exists queue claim_id project w) = Some false) as Hex.
  { destruct Habsent as [Hm|(expires & He & Hnow)].
    - by apply _exists_not_member.
    - by eapply _exists_past. }
  destruct (delete_not_found _ _ _ _ HQ Hex) as (w' & reads & ? & ? & _ & ? & ?).
  by exists w', reads.
Qed.

Lemma _exists_false_inv queue claim_id project w :
  Quiet →
  value (_exists queue claim_id project w) = Some false →
  (claim_id ∉ smembers (redis w) (claims_set_key queue project)) ∨
  ∃ expires, hgetall_claim (redis w) claim_id !! "e" = Some (FInt expires) ∧
             expires < clock (ticks w).
Proof.
  intros HQ. rewrite _exists_quiet by done. simpl.
  case_bool_decide as Hm; [|by left].
  destruct (hgetall_claim (redis w) claim_id !! "e") as [[e|?]|]; try done.
  case_bool_decide; [|done]. intros _. right. exists e. split; [done|lia].
Qed.

(** C6: when the claim does not exist (its id is not in the claims set,
    whatever the id looks like, or its stored expiry has passed),
    [delete] returns without raising and without touching the store; and
    [delete] twice in a row ends as [delete] once does: same outcome,
    same store. *)
Theorem delete_idempotent queue claim_id project w :
  Quiet → Monotone →
  let once := delete queue claim_id project w in
  let twice :=
    (delete queue claim_id project;; delete queue claim_id project) w in
  (value (_exists queue claim_id project w) = Some false →
   value once = Some () ∧ redis (world_of once) = redis w) ∧
  ((claim_id ∉ smembers (redis w) (claims_set_key queue project)) →
   value once = Some () ∧ redis (world_of once) = redis w) ∧
  raised twice = raised once ∧ value twice = value once ∧
  redis (world_of twice) = redis (world_of once).
Proof.
  intros HQ Hmono once twice.
  assert (∀ w0, value (_exists queue claim_id project w0) = Some false →
            value (delete queue claim_id project w0) = Some () ∧
            raised (delete queue claim_id project w0) = None ∧
            redis (world_of (delete queue claim_id project w0)) = redis w0)
    as Hsilent.
  { intros w0 Hex.
    destruct (delete_not_found _ _ _ _ HQ Hex) as (w' & reads & -> & Hs & _).
    done. }
  split; [|split].
  - intros Hex. by destruct (Hsilent w Hex) as (? & _ & ?).
  - intros Hm. apply _exists_not_member in Hm; [|done].
    by destruct (Hsilent w Hm) as (? & _ & ?).
  - unfold twice, once, mbind, M_bind.
    destruct (_exists queue claim_id project w) as [[|] w1|e w1] eqn:Hex.
    + assert (value (_exists queue claim_id project w) = Some true) as Hv
        by by rewrite Hex.
      pose proof (delete_found _ _ _ _ HQ Hv) as Hrun. simpl in Hrun.
      rewrite Hrun. simpl.
      match goal with
      | |- context [delete queue claim_id project ?w0] =>
          destruct (Hsilent w0) as (Hval & Hr & Hs)
      end.
      { apply _exists_not_member; [done|]. simpl. apply delete_pipe_set. }
      by rewrite Hval, Hr, Hs.
    + assert (value (_exists queue claim_id project w) = Some false) as Hv
        by by rewrite Hex.
      destruct (delete_not_found _ _ _ _ HQ Hv)
        as (w' & reads & Hrun & Hs & Ht & _).
      rewrite Hrun. simpl.
      destruct (Hsilent w') as (Hval & Hr & Hs').
      { destruct (_exists_false_inv _ _ _ _ HQ Hv) as [Hm|(expires & He & Hnow)].
        - apply _exists_not_member; [done|]. by rewrite Hs.
        - eapply _exists_past; [done|by rewrite Hs|].
          pose proof (Hmono _ _ Ht). lia. }
      by rewrite Hval, Hr, Hs'.
    + unfold delete, mbind, M_bind. by rewrite Hex.
Qed.

(** *** [update] *)

Lemma claim_message_bound claim_id now ttl grace prior :
  bound_and_extended claim_id (now + ttl) ttl grace prior
    (claim_message claim_id (now + ttl) (ttl + grace) (now + ttl + grace) prior).
Proof.
  unfold bound_and_extended, claim_message, _msg_would_expire.
  destruct prior as [i b t e c ce]. simpl.
  case_bool_decide; simpl; split_and!; try done; try lia; intros; lia.
Qed.

Lemma stage_update_app claim_id claim_expires msg_ttl msg_expires claimed pipe :
  stage_update claim_id claim_expires msg_ttl msg_expires claimed pipe =
    pipe ++ (TO_REDIS ∘ claim_message claim_id claim_expires msg_ttl msg_expires
               <$> present claimed).
Proof.
  revert pipe. induction claimed as [|[msg|] claimed IH]; intros pipe; simpl.
  - by rewrite app_nil_r.
  - rewrite IH. unfold present. simpl. by rewrite <- app_assoc.
  - by rewrite IH.
Qed.

Lemma update_found queue claim_id metadata project w :
  Quiet →
  value (_exists queue claim_id project w) = Some true →
  let now := clock (ticks w + 1) in
  let pipe := update_pipe claim_id (metadata_get metadata "ttl")
                          (metadata_get metadata "grace") now (redis w) in
  let msg_keys := lrange (redis w) (claim_messages_key claim_id) in
  update queue claim_id metadata project w =
    Ok () (mkWorld (exec pipe (redis w)) (ticks w + 2) (uuids w)
             (EvExec pipe ::
              log (fetched msg_keys
                     (asked (EvLrange (claim_messages_key claim_id))
                            (ticked (checked queue claim_id project w)))))).
Proof.
  intros HQ Hex. destruct (_exists_true _ _ _ _ HQ Hex) as (Hrun & _ & _).
  unfold update, mbind, M_bind. rewrite Hrun. simpl. rewrite !HQ.
  fold (claim_messages_key claim_id).
  rewrite pipeline_hgetall_quiet by done. unfold execute. simpl.
  rewrite !redis_fetched, !ticks_fetched, !uuids_fetched. simpl. rewrite HQ.
  rewrite stage_update_app, present_hgetall.
  unfold update_pipe.
  replace (ticks w + 1)%nat with (S (ticks w)) by lia.
  replace (ticks w + 2)%nat with (S (S (ticks w))) by lia.
  done.
Qed.

Lemma update_pipe_message claim_id claim_ttl grace now s key msg :
  messages_keyed_by_id s →
  key ∈ lrange s (claim_messages_key claim_id) →
  hgetall s key = Some msg →
  hgetall (exec (update_pipe claim_id claim_ttl grace now s) s) key =
    Some (claim_message claim_id (now + claim_ttl) (claim_ttl + grace)
                        (now + claim_ttl + grace) msg).
Proof.
  intros Hwf Hkey Hmsg.
  set (f := claim_message claim_id (now + claim_ttl) (claim_ttl + grace)
                          (now + claim_ttl + grace)).
  assert (Message.id (f msg) = Message.id msg) as Hidf
    by apply claim_message_bound.
  assert (f msg ∈ written (update_pipe claim_id claim_ttl grace now s)) as Hin.
  { unfold update_pipe. rewrite written_app. apply elem_of_app. left.
    rewrite written_TO_REDIS. apply list_elem_of_fmap. exists msg.
    split; [done|]. apply list_elem_of_omap. eauto. }
  eapply (messages_exec_written _ s) in Hin as (msg' & Hin & Hid & Hl).
  - unfold update_pipe in Hin. rewrite written_app, written_TO_REDIS in Hin.
    simpl in Hin. rewrite app_nil_r in Hin.
    apply list_elem_of_fmap in Hin as (msg0 & -> & Hin).
    apply list_elem_of_omap in Hin as (key0 & _ & Hmsg0).
    assert (Message.id (f msg0) = Message.id msg0) as Hidf0
      by apply claim_message_bound.
    fold f in Hid, Hl. rewrite Hidf in Hl, Hid. rewrite Hidf0 in Hid.
    rewrite (Hwf _ _ Hmsg) in Hl, Hid. rewrite (Hwf _ _ Hmsg0) in Hid.
    subst key0. unfold hgetall in *. rewrite Hl. congruence.
  - unfold update_pipe. apply Forall_app. split; [|by repeat constructor].
    apply Forall_fmap, Forall_true. done.
Qed.

(** C9: [update] on a live claim rebinds every message of the claim's
    stored id list that still materialises: whatever the message's
    [claim_id] was, another claim's included, the record in the store
    afterwards carries this claim's id and the new claim expiry. *)
Theorem update_rebinds_messages queue claim_id metadata project w :
  Quiet →
  messages_keyed_by_id (redis w) →
  value (_exists queue claim_id project w) = Some true →
  let claim_expires := clock (ticks w + 1) + metadata_get metadata "ttl" in
  ∃ w',
    update queue claim_id metadata project w = Ok () w' ∧
    ∀ key msg,
      key ∈ lrange (redis w) (claim_messages_key claim_id) →
      hgetall (redis w) key = Some msg →
      ∃ msg', hgetall (redis w') key = Some msg' ∧
              Message.claim_id msg' = Some claim_id ∧
              Message.claim_expires msg' = claim_expires.
Proof.
  intros HQ Hwf Hex claim_expires.
  pose proof (update_found _ _ metadata _ _ HQ Hex) as Hrun. simpl in Hrun.
  eexists. split; [exact Hrun|]. simpl.
  intros key msg Hkey Hmsg.
  eexists. split; [by apply update_pipe_message|].
  split; apply claim_message_bound.
Qed.

(** *** [create] *)

Lemma stage_claim_app claim_key claim_id claim_expires msg_ttl msg_expires now
    msg_list pipe basic_messages :
  stage_claim claim_key claim_id claim_expires msg_ttl msg_expires now
              msg_list pipe basic_messages =
    (pipe ++ mbind (claim_commands claim_key claim_id claim_expires msg_ttl
                                   msg_expires) msg_list,
     basic_messages ++
       ((λ msg, to_basic (claim_message claim_id claim_expires msg_ttl
                                        msg_expires msg) now) <$> msg_list)).
Proof.
  revert pipe basic_messages.
  induction msg_list as [|msg msg_list IH]; intros pipe basic_messages; simpl.
  - by rewrite !app_nil_r.
  - rewrite IH. unfold claim_commands at 2. simpl.
    by rewrite <- !app_assoc.
Qed.

Lemma written_claim_commands claim_key claim_id claim_expires msg_ttl
    msg_expires msg_list :
  written (mbind (claim_commands claim_key claim_id claim_expires msg_ttl
                                 msg_expires) msg_list) =
    claim_message claim_id claim_expires msg_ttl msg_expires <$> msg_list.
Proof.
  induction msg_list as [|msg msg_list IH]; [done|].
  rewrite bind_cons, written_app, IH. done.
Qed.

(** One iteration of the loop, step by step. *)
Lemma create_iteration_run queue project limit claim_id claim_key
    claims_set_key counter_key ttl grace w :
  let s_read := interference (length (log w)) (redis w) in
  let msg_list := msg_active (clock (ticks w)) s_read queue project limit in
  let s_watch := interference (S (length (log w))) s_read in
  let s_exec := interference (S (S (length (log w)))) s_watch in
  let now := clock (S (ticks w)) in
  let pipe := create_pipe queue project claim_id claim_key claims_set_key
                          ttl grace now msg_list in
  let basic_messages :=
    (λ msg, to_basic (claim_message claim_id (now + ttl) (ttl + grace)
                                    (now + ttl + grace) msg) now) <$> msg_list in
  let seen ev := ev :: EvWatch counter_key :: EvActive queue project limit :: log w in
  create_iteration queue project limit claim_id claim_key claims_set_key
                   counter_key ttl grace (ttl + grace) w =
    match msg_list with
    | [] =>
        Ok (Return (None, []))
           (mkWorld s_read (S (ticks w)) (uuids w)
                    (EvActive queue project limit :: log w))
    | _ =>
        if bool_decide (stamp s_exec counter_key = stamp s_watch counter_key)
        then Ok (Return (Some claim_id, basic_messages))
                (mkWorld (exec pipe s_exec) (S (S (ticks w))) (uuids w)
                         (seen (EvExec pipe)))
        else Ok Continue
                (mkWorld s_exec (S (S (ticks w))) (uuids w)
                         (seen (EvAbort pipe)))
    end.
Proof.
  intros s_read msg_list s_watch s_exec now pipe basic_messages seen.
  unfold create_iteration, _active, mbind at 1, M_bind. simpl.
  fold s_read. fold msg_list. destruct msg_list as [|msg rest] eqn:Hlist; [done|].
  rewrite <- Hlist. unfold except_WatchError, mbind, M_bind. simpl.
  fold s_watch. fold now. rewrite stage_claim_app. simpl.
  unfold execute. simpl. fold s_exec. fold pipe. unfold create_pipe in pipe.
  fold pipe. case_bool_decide as Hstamp; simpl.
  - by rewrite Hlist.
  - by rewrite Hlist.
Qed.

Section CreatePipe.
Variables (queue : string) (project : option string).
Variables (claim_id claim_key claims_set_key : string).
Variables (ttl grace now : Z) (msg_list : list Message.t) (s : Store).

Local Abbreviation pipe :=
  (create_pipe queue project claim_id claim_key claims_set_key ttl grace now
               msg_list).

Lemma written_create_pipe :
  written pipe =
    claim_message claim_id (now + ttl) (ttl + grace) (now + ttl + grace)
      <$> msg_list.
Proof.
  unfold create_pipe. rewrite !written_app, written_claim_commands.
  simpl. by rewrite !app_nil_r.
Qed.

Lemma create_pipe_no_DEL : Forall (λ c, is_DEL c = false) pipe.
Proof.
  unfold create_pipe. rewrite !Forall_app. split_and!;
    try by repeat constructor.
  apply Forall_forall. intros c Hc. apply list_elem_of_bind in Hc as (msg & Hc & _).
  unfold claim_commands in Hc. apply elem_of_cons in Hc as [->|Hc]; [done|].
  by apply list_elem_of_singleton in Hc as ->.
Qed.

Lemma create_pipe_record :
  hgetall_claim (exec pipe s) claim_id !! "e" = Some (FInt (now + ttl)) ∧
  hgetall_claim (exec pipe s) claim_id !! "t" = Some (FInt ttl) ∧
  hgetall_claim (exec pipe s) claim_id !! "id" = Some (FStr claim_id).
Proof.
  unfold create_pipe. rewrite !exec_snoc. unfold hgetall_claim. simpl.
  rewrite lookup_insert_eq. simpl. split_and!.
  - apply lookup_insert_eq.
  - rewrite lookup_insert_ne by done. apply lookup_insert_eq.
  - rewrite !lookup_insert_ne by done. apply lookup_insert_eq.
Qed.

Lemma create_pipe_member : claim_id ∈ smembers (exec pipe s) claims_set_key.
Proof.
  unfold create_pipe. rewrite !exec_snoc. unfold smembers at 1. simpl.
  rewrite lookup_insert_eq. simpl. apply elem_of_union. right.
  by apply elem_of_singleton.
Qed.

Lemma create_pipe_stored msg :
  msg ∈ written pipe →
  ∃ msg', msg' ∈ written pipe ∧ hgetall (exec pipe s) (Message.id msg) = Some msg'.
Proof.
  intros Hin.
  destruct (messages_exec_written pipe s msg create_pipe_no_DEL Hin)
    as (msg' & ? & _ & ?).
  by exists msg'.
Qed.
End CreatePipe.

Section Loop.
Variables (queue : string) (project : option string) (limit : Z).
Variables (claim_id : string) (ttl grace start_ts : Z).

Local Abbreviation iteration := (iteration queue project limit claim_id ttl grace).
Local Abbreviation loop := (loop queue project limit claim_id ttl grace start_ts).
Local Abbreviation retried :=
  (retried queue project limit claim_id ttl grace start_ts).

Lemma loop_S fuel w :
  loop (S fuel) w =
    if bool_decide (clock (ticks w) - start_ts < RETRY_CLAIM_TIMEOUT) then
      match iteration (ticked w) with
      | Raise e w' => Some (Raise e w')
      | Ok (Return r) w' => Some (Ok r w')
      | Ok Continue w' => loop fuel w'
      end
    else Some (Raise (ClaimConflict queue project) (ticked w)).
Proof. done. Qed.

Lemma iteration_never_raises w e w' : iteration w ≠ Raise e w'.
Proof.
  unfold iteration. rewrite create_iteration_run.
  destruct (msg_active _ _ _ _ _); [done|]. by case_bool_decide.
Qed.

Lemma iteration_ticks w r w' :
  iteration w = Ok r w' → (ticks w < ticks w')%nat.
Proof.
  unfold iteration. rewrite create_iteration_run.
  destruct (msg_active _ _ _ _ _); [|case_bool_decide];
    intros; simplify_eq; simpl; lia.
Qed.

Lemma loop_retried fuel w w' : retried w w' → loop (S fuel) w = loop fuel w'.
Proof.
  intros [Htest Hiter]. rewrite loop_S, bool_decide_true by done.
  by rewrite Hiter.
Qed.

(** A run that raises went round the loop some number of times, each
    ending in a failed commit, and then failed the test. *)
Lemma loop_raises fuel w e w' :
  loop fuel w = Some (Raise e w') →
  e = ClaimConflict queue project ∧
  ∃ n wk, (n < fuel)%nat ∧ nsteps retried n w wk ∧
          RETRY_CLAIM_TIMEOUT ≤ clock (ticks wk) - start_ts ∧ w' = ticked wk.
Proof.
  revert w. induction fuel as [|fuel IH]; intros w; [done|].
  rewrite loop_S. case_bool_decide as Htest.
  - destruct (iteration (ticked w)) as [[r|] w1|e1 w1] eqn:Hiter; try done.
    + intros Hloop. destruct (IH _ Hloop) as (-> & n & wk & Hn & Hsteps & Hwk).
      split; [done|]. exists (S n), wk. split_and!; [lia| |apply Hwk..].
      by eapply nsteps_l.
    + by apply iteration_never_raises in Hiter.
  - intros [= <- <-]. split; [done|]. exists 0%nat, w.
    split_and!; [lia|constructor|lia|done].
Qed.

Lemma loop_conflict n w wk :
  nsteps retried n w wk →
  RETRY_CLAIM_TIMEOUT ≤ clock (ticks wk) - start_ts →
  loop (S n) w = Some (Raise (ClaimConflict queue project) (ticked wk)).
Proof.
  induction 1 as [w|n w w1 wk Hstep _ IH]; intros Htest.
  - rewrite loop_S, bool_decide_false by lia. done.
  - rewrite (loop_retried _ _ _ Hstep). by apply IH.
Qed.

(** A run that returns did so from an iteration. *)
Lemma loop_returns fuel w r w' :
  loop fuel w = Some (Ok r w') →
  ∃ w0, iteration w0 = Ok (Return r) w'.
Proof.
  revert w. induction fuel as [|fuel IH]; intros w; [done|].
  rewrite loop_S. case_bool_decide as Htest; [|done].
  destruct (iteration (ticked w)) as [[r1|] w1|e1 w1] eqn:Hiter; try done.
  - intros [= <- <-]. eauto.
  - apply IH.
Qed.

(** Once the clock has passed the budget for good, the loop ends: a run
    with enough fuel gives a result. *)
Lemma loop_terminates (k fuel : nat) w :
  (∀ n, (k ≤ n)%nat → RETRY_CLAIM_TIMEOUT ≤ clock n - start_ts) →
  (k ≤ ticks w + fuel)%nat →
  ∃ r, loop (S fuel) w = Some r.
Proof.
  intros Hlate. revert w. induction fuel as [|fuel IH]; intros w Hk;
    rewrite loop_S; (case_bool_decide as Htest; [|by eauto]).
  - specialize (Hlate (ticks w)). lia.
  - destruct (iteration (ticked w)) as [[r1|] w1|e1 w1] eqn:Hiter; eauto.
    apply IH. apply iteration_ticks in Hiter. simpl in Hiter. lia.
Qed.
End Loop.

Lemma create_unfold fuel queue metadata project limit w :
  create fuel queue metadata project limit w =
    loop queue project limit (uuid (uuids w)) (metadata_get metadata "ttl")
         (metadata_get metadata "grace") (clock (ticks w)) fuel
         (mkWorld (redis w) (S (ticks w)) (S (uuids w)) (log w)).
Proof. done. Qed.

Lemma update_pipe_record claim_id claim_ttl grace now s :
  hgetall_claim (exec (update_pipe claim_id claim_ttl grace now s) s) claim_id
    !! "e" = Some (FInt (now + claim_ttl)).
Proof.
  unfold update_pipe. rewrite exec_snoc. unfold hgetall_claim. simpl.
  rewrite lookup_insert_eq. simpl. apply lookup_insert_eq.
Qed.

Lemma update_pipe_no_DEL claim_id claim_ttl grace now s :
  Forall (λ c, is_DEL c = false) (update_pipe claim_id claim_ttl grace now s).
Proof.
  unfold update_pipe. apply Forall_app. split; [|by repeat constructor].
  apply Forall_fmap, Forall_true. done.
Qed.

Lemma Forall2_bound claim_id now ttl grace (msg_list : list Message.t) :
  Forall2 (bound_and_extended claim_id (now + ttl) ttl grace) msg_list
    (claim_message claim_id (now + ttl) (ttl + grace) (now + ttl + grace)
       <$> msg_list).
Proof.
  apply Forall2_fmap_r, Forall_Forall2_diag, Forall_forall.
  intros msg _. apply claim_message_bound.
Qed.

(** The order of the round trips of an iteration that found messages:
    the message view is read first, WATCH comes second, EXEC last.  The
    batch is what the message view held before WATCH was sent. *)
Lemma create_iteration_order queue project limit claim_id ttl grace w r w' :
  iteration queue project limit claim_id ttl grace w = Ok r w' →
  msg_active (clock (ticks w)) (interference (length (log w)) (redis w))
             queue project limit ≠ [] →
  ∃ ev, is_write ev = true ∧
        log w' = ev :: EvWatch (_claim_counter_key queue project)
                    :: EvActive queue project limit :: log w.
Proof.
  unfold iteration. rewrite create_iteration_run.
  destruct (msg_active _ _ _ _ _); [done|].
  case_bool_decide; intros [= <- <-] _; eexists; (split; [|reflexivity]); done.
Qed.

(** C1: after a [create] that returns a claim id, and after an [update],
    every message the operation wrote carries the claim's id and the
    claim's expiry [now + ttl] (the value stored in the claim record),
    and lives until that expiry plus grace at least: its [expires] and
    [ttl] are [now + ttl + grace] and [ttl + grace] exactly when the
    [expires] read before was below [now + ttl + grace], and are what
    was read otherwise.  The store holds such a record under the id of
    every message written. *)
Theorem claim_binds_and_extends_messages :
  (∀ fuel queue metadata project limit w claim_id basic_messages w',
     create fuel queue metadata project limit w
       = Some (Ok (Some claim_id, basic_messages) w') →
     let ttl := metadata_get metadata "ttl" in
     let grace := metadata_get metadata "grace" in
     ∃ w0 pipe,
       let now := clock (ticks w0 + 1) in
       let msg_list :=
         msg_active (clock (ticks w0))
                    (interference (length (log w0)) (redis w0))
                    queue project limit in
       msg_list ≠ [] ∧
       log w' = EvExec pipe :: EvWatch (_claim_counter_key queue project)
                  :: EvActive queue project limit :: log w0 ∧
       hgetall_claim (redis w') claim_id !! "e" = Some (FInt (now + ttl)) ∧
       Forall2 (bound_and_extended claim_id (now + ttl) ttl grace)
               msg_list (written pipe) ∧
       ∀ msg, msg ∈ written pipe →
              ∃ msg', msg' ∈ written pipe ∧
                      hgetall (redis w') (Message.id msg) = Some msg') ∧
  (∀ queue claim_id metadata project w w',
     Quiet →
     update queue claim_id metadata project w = Ok () w' →
     let ttl := metadata_get metadata "ttl" in
     let grace := metadata_get metadata "grace" in
     let now := clock (ticks w + 1) in
     let claimed_msgs :=
       omap (hgetall (redis w)) (lrange (redis w) (claim_messages_key claim_id)) in
     ∃ pipe reads,
       log w' = EvExec pipe :: reads ++ log w ∧
       Forall (λ ev, is_write ev = false) reads ∧
       hgetall_claim (redis w') claim_id !! "e" = Some (FInt (now + ttl)) ∧
       Forall2 (bound_and_extended claim_id (now + ttl) ttl grace)
               claimed_msgs (written pipe) ∧
       ∀ msg, msg ∈ written pipe →
              ∃ msg', msg' ∈ written pipe ∧
                      hgetall (redis w') (Message.id msg) = Some msg').
Proof.
  split.
  - intros fuel queue metadata project limit w claim_id basic_messages w'
           Hcreate ttl grace.
    rewrite create_unfold in Hcreate.
    apply loop_returns in Hcreate as [w0 Hiter].
    unfold iteration in Hiter. rewrite create_iteration_run in Hiter.
    exists w0. replace (ticks w0 + 1)%nat with (S (ticks w0)) by lia.
    destruct (msg_active _ _ _ _ _) as [|msg rest] eqn:Hlist; [by simplify_eq|].
    case_bool_decide; [|done]. injection Hiter as <- _ <-.
    eexists. simpl. split_and!; [done|done| | |].
    + apply create_pipe_record.
    + rewrite written_create_pipe. apply Forall2_bound.
    + apply create_pipe_stored.
  - intros queue claim_id metadata project w w' HQ Hupdate ttl grace now
           claimed_msgs.
    assert (value (_exists queue claim_id project w) = Some true) as Hex.
    { unfold update, mbind, M_bind in Hupdate.
      by destruct (_exists queue claim_id project w) as [[|] ?|]. }
    pose proof (update_found _ _ metadata _ _ HQ Hex) as Hrun. simpl in Hrun.
    rewrite Hrun in Hupdate. injection Hupdate as <-.
    eexists _, (log (fetched (lrange (redis w) (claim_messages_key claim_id))
      (asked (EvLrange (claim_messages_key claim_id))
         (ticked (asked (EvHmget claim_id ["e"])
            (asked (EvSismember (claims_set_key queue project) claim_id)
               (mkWorld (redis w) (ticks w) (uuids w) []))))))).
    simpl. split_and!.
    + by destruct (lrange (redis w) (claim_messages_key claim_id)).
    + destruct (lrange (redis w) (claim_messages_key claim_id));
        by repeat constructor.
    + apply update_pipe_record.
    + unfold update_pipe. rewrite written_app, written_TO_REDIS. simpl.
      rewrite app_nil_r. apply Forall2_bound.
    + intros msg Hin.
      destruct (messages_exec_written _ (redis w) msg
                  (update_pipe_no_DEL _ _ _ _ _) Hin) as (msg' & ? & _ & ?).
      by exists msg'.
Qed.

(** C3: [create] on a queue for which the message view yields nothing
    returns [(None, [])] without raising.  Its only round trip is that
    read: no command is sent, so the claimed counter, the claims set, the
    claim records and the message records are what the server held when
    the read was made.  (The loop is entered: less than the budget
    elapses between the two first readings of the clock.) *)
Theorem create_on_empty_queue fuel queue metadata project limit w :
  let s_read := interference (length (log w)) (redis w) in
  clock (ticks w + 1) - clock (ticks w) < RETRY_CLAIM_TIMEOUT →
  msg_active (clock (ticks w + 2)) s_read queue project limit = [] →
  ∃ w',
    create (S fuel) queue metadata project limit w = Some (Ok (None, []) w') ∧
    log w' = EvActive queue project limit :: log w ∧
    redis w' = s_read ∧
    counter (redis w') (_claim_counter_key queue project)
      = counter s_read (_claim_counter_key queue project) ∧
    smembers (redis w') (claims_set_key queue project)
      = smembers s_read (claims_set_key queue project) ∧
    hashes (redis w') = hashes s_read ∧
    messages (redis w') = messages s_read.
Proof.
  intros s_read Htest Hempty.
  replace (ticks w + 1)%nat with (S (ticks w)) in Htest by lia.
  replace (ticks w + 2)%nat with (S (S (ticks w))) in Hempty by lia.
  rewrite create_unfold, loop_S. simpl.
  rewrite bool_decide_true by done.
  unfold iteration. rewrite create_iteration_run. simpl.
  fold s_read. rewrite Hempty. eexists. split; [done|]. by simpl.
Qed.

(** C4: [create] raises ClaimConflict, and nothing else, exactly when its
    loop runs out of the budget [RETRY_CLAIM_TIMEOUT] of 10 seconds: every
    turn before ended in a refused commit and then the test
    [utcnow_ts() - start_ts < RETRY_CLAIM_TIMEOUT] failed.  A turn whose
    commit is refused leaves the server as the other clients made it (the
    staged pipeline is dropped), and the loop goes on from the world it
    left, with a new read of the active batch and of the clock. *)
Theorem create_conflict_iff_budget_exhausted queue metadata project limit w :
  let claim_id := uuid (uuids w) in
  let ttl := metadata_get metadata "ttl" in
  let grace := metadata_get metadata "grace" in
  let start_ts := clock (ticks w) in
  let entry := mkWorld (redis w) (S (ticks w)) (S (uuids w)) (log w) in
  let turn := retried queue project limit claim_id ttl grace start_ts in
  RETRY_CLAIM_TIMEOUT = 10 ∧
  (∀ fuel e w',
     create fuel queue metadata project limit w = Some (Raise e w') →
     e = ClaimConflict queue project) ∧
  (∀ w',
     (∃ fuel, create fuel queue metadata project limit w
                = Some (Raise (ClaimConflict queue project) w')) ↔
     (∃ wk, rtc turn entry wk ∧
            RETRY_CLAIM_TIMEOUT ≤ clock (ticks wk) - start_ts ∧
            w' = ticked wk)) ∧
  (∀ wi wi',
     turn wi wi' →
     let n := length (log wi) in
     redis wi' =
       interference (S (S n)) (interference (S n) (interference n (redis wi))) ∧
     (∃ pipe, log wi' = EvAbort pipe
                          :: EvWatch (_claim_counter_key queue project)
                          :: EvActive queue project limit :: log wi) ∧
     ∀ fuel,
       loop queue project limit claim_id ttl grace start_ts (S fuel) wi =
       loop queue project limit claim_id ttl grace start_ts fuel wi').
Proof.
  intros claim_id ttl grace start_ts entry turn. split_and!; [done| | |].
  - intros fuel e w' Hcreate. rewrite create_unfold in Hcreate.
    by apply loop_raises in Hcreate as [-> _].
  - intros w'. split.
    + intros [fuel Hcreate]. rewrite create_unfold in Hcreate.
      apply loop_raises in Hcreate as (_ & n & wk & _ & Hsteps & Htest & ->).
      exists wk. split_and!; [|done..]. by eapply rtc_nsteps_2.
    + intros (wk & Hsteps & Htest & ->).
      apply rtc_nsteps_1 in Hsteps as [n Hsteps].
      exists (S n). rewrite create_unfold. by apply loop_conflict.
  - intros wi wi' Hturn n. split_and!.
    + destruct Hturn as [_ Hiter]. unfold iteration in Hiter.
      rewrite create_iteration_run in Hiter.
      destruct (msg_active _ _ _ _ _); [done|].
      case_bool_decide; [done|]. by injection Hiter as <-.
    + destruct Hturn as [_ Hiter]. unfold iteration in Hiter.
      rewrite create_iteration_run in Hiter.
      destruct (msg_active _ _ _ _ _); [done|].
      case_bool_decide; [done|]. injection Hiter as <-. by eexists.
    + intros fuel. by apply loop_retried.
Qed.

(** C2 (amended): the existence check says yes exactly when the claim id
    is in the claims set and the stored [expires] is not before now
    ([now > expires] is what makes it say no).  So a claim created with
    [ttl = 0], whose stored [expires] is the instant of its creation,
    still exists at that instant: on the store [create] left, [get]
    raises ClaimDoesNotExist exactly when its clock reading is strictly
    later than that instant. *)
Theorem claim_exists_iff_member_and_not_past queue claim_id project w :
  Quiet →
  (value (_exists queue claim_id project w) = Some true ↔
   claim_id ∈ smembers (redis w) (claims_set_key queue project) ∧
   ∃ expires, hgetall_claim (redis w) claim_id !! "e" = Some (FInt expires) ∧
              clock (ticks w) ≤ expires) ∧
  (∀ fuel metadata limit w0 basic_messages,
     metadata_get metadata "ttl" = 0 →
     create fuel queue metadata project limit w0
       = Some (Ok (Some claim_id, basic_messages) w) →
     let created := clock (ticks w - 1) in
     hgetall_claim (redis w) claim_id !! "e" = Some (FInt created) ∧
     ∀ w_later,
       redis w_later = redis w →
       (raised (get queue claim_id project w_later)
          = Some (ClaimDoesNotExist (Some queue) project (Some claim_id)) ↔
        created < clock (ticks w_later))).
Proof.
  intros HQ. split.
  - split; [intros Hex; by destruct (_exists_true _ _ _ _ HQ Hex) as (_ & ? & ?)|].
    intros (Hm & expires & He & Hnow). rewrite _exists_quiet by done. simpl.
    rewrite bool_decide_true, He by done. simpl.
    by rewrite bool_decide_false by lia.
  - intros fuel metadata limit w0 basic_messages Httl Hcreate created.
    rewrite create_unfold in Hcreate.
    apply loop_returns in Hcreate as [wi Hiter].
    unfold iteration in Hiter. rewrite create_iteration_run in Hiter.
    destruct (msg_active _ _ _ _ _) as [|msg rest] eqn:Hlist; [by simplify_eq|].
    case_bool_decide; [|done]. injection Hiter as <- _ <-.
    unfold created. simpl. rewrite ?Nat.sub_0_r, Httl.
    match goal with
    | |- context [exec ?pipe ?s] => set (s' := exec pipe s)
    end.
    assert (hgetall_claim s' (uuid (uuids w0)) !! "e"
              = Some (FInt (clock (S (ticks wi)) + 0)) ∧
            hgetall_claim s' (uuid (uuids w0)) !! "t" = Some (FInt 0) ∧
            uuid (uuids w0) ∈ smembers s' (claims_set_key queue project))
      as (He & Ht & Hm).
    { split_and!; [apply create_pipe_record..|apply create_pipe_member]. }
    rewrite Z.add_0_r in He. split; [done|].
    intros w_later Hs. rewrite <- Hs in He, Ht, Hm. split.
    + intros Hraised.
      destruct (decide (clock (S (ticks wi)) < clock (ticks w_later))); [done|].
      assert (value (_exists queue (uuid (uuids w0)) project w_later) = Some true)
        as Hex.
      { rewrite _exists_quiet by done. simpl.
        rewrite bool_decide_true, He by done. simpl.
        by rewrite bool_decide_false by lia. }
      destruct (get_found queue (uuid (uuids w0)) project w_later _ _
                  HQ Hex He Ht) as [Hval _].
      destruct (get queue (uuid (uuids w0)) project w_later); done.
    + intros Hlater.
      apply get_not_found; [done|]. by eapply _exists_past.
Qed.

End Properties.

(** ** The operations, one after the other *)

Section Compositions.
Context `{Collaborators} `{Environment}.

(** *** What a committed [create] leaves in the indexes *)

Lemma exec_claim_commands claim_key claim_id claim_expires msg_ttl msg_expires
    msg_list s :
  let s' := exec (mbind (claim_commands claim_key claim_id claim_expires msg_ttl
                                        msg_expires) msg_list) s in
  lrange s' claim_key = lrange s claim_key ++ (Message.id <$> msg_list) ∧
  (∀ key, key ≠ claim_key → lists s' !! key = lists s !! key) ∧
  sets s' = sets s ∧ hashes s' = hashes s ∧ counters s' = counters s.
Proof.
  revert s. induction msg_list as [|msg msg_list IH]; intros s.
  - simpl. by rewrite app_nil_r.
  - rewrite bind_cons, exec_app.
    destruct (IH (exec (claim_commands claim_key claim_id claim_expires msg_ttl
                                       msg_expires msg) s))
      as (Hl & Ho & Hs & Hh & Hc).
    cbv zeta. split_and!.
    + rewrite Hl, fmap_cons, (cons_middle _ (lrange s claim_key)), app_assoc.
      f_equal. unfold claim_commands, exec, lrange. simpl.
      rewrite lookup_insert_eq. simpl. do 2 f_equal.
      unfold claim_message. by case_match.
    + intros key Hkey. rewrite Ho by done.
      unfold claim_commands, exec. simpl. by rewrite lookup_insert_ne.
    + by rewrite Hs.
    + by rewrite Hh.
    + by rewrite Hc.
Qed.

Section CreatePipeIndexes.
Variables (queue : string) (project : option string).
Variables (claim_id : string) (ttl grace now : Z).
Variables (msg_list : list Message.t) (s : Store).

Local Abbreviation pipe :=
  (create_pipe queue project claim_id (claim_messages_key claim_id)
               (claims_set_key queue project) ttl grace now msg_list).

Lemma create_pipe_list :
  lrange (exec pipe s) (claim_messages_key claim_id) =
    lrange s (claim_messages_key claim_id) ++ (Message.id <$> msg_list).
Proof.
  unfold create_pipe. rewrite !exec_snoc.
  etransitivity; [|apply exec_claim_commands]. reflexivity.
Qed.

Lemma create_pipe_counter :
  counter (exec pipe s) (_claim_counter_key queue project) =
    counter s (_claim_counter_key queue project) + Z.of_nat (length msg_list).
Proof.
  unfold create_pipe. rewrite !exec_snoc. unfold counter. simpl.
  rewrite lookup_insert_eq. simpl.
  destruct (exec_claim_commands (claim_messages_key claim_id) claim_id
              (now + ttl) (ttl + grace) (now + ttl + grace) msg_list s)
    as (_ & _ & _ & _ & Hc).
  unfold counter. simpl. by rewrite Hc.
Qed.

Lemma create_pipe_set :
  smembers (exec pipe s) (claims_set_key queue project) =
    smembers s (claims_set_key queue project) ∪ {[claim_id]}.
Proof.
  unfold create_pipe. rewrite !exec_snoc. unfold smembers. simpl.
  rewrite lookup_insert_eq. simpl.
  destruct (exec_claim_commands (claim_messages_key claim_id) claim_id
              (now + ttl) (ttl + grace) (now + ttl + grace) msg_list s)
    as (_ & _ & Hs & _).
  unfold smembers. simpl. by rewrite Hs.
Qed.
End CreatePipeIndexes.

(** [create] for a single client, step by step. *)
Lemma create_quiet fuel queue metadata project limit w :
  Quiet →
  let ttl := metadata_get metadata "ttl" in
  let grace := metadata_get metadata "grace" in
  let claim_id := uuid (uuids w) in
  let msg_list := msg_active (clock (ticks w + 2)) (redis w) queue project limit in
  let now := clock (ticks w + 3) in
  let pipe := create_pipe queue project claim_id (claim_messages_key claim_id)
                          (claims_set_key queue project) ttl grace now msg_list in
  create (S fuel) queue metadata project limit w =
    if bool_decide (clock (ticks w + 1) - clock (ticks w) < RETRY_CLAIM_TIMEOUT)
    then
      match msg_list with
      | [] =>
          Some (Ok (None, [])
                   (mkWorld (redis w) (ticks w + 3) (S (uuids w))
                            (EvActive queue project limit :: log w)))
      | _ =>
          Some (Ok (Some claim_id,
                    (λ msg, to_basic (claim_message claim_id (now + ttl)
                                        (ttl + grace) (now + ttl + grace) msg)
                                     now) <$> msg_list)
                   (mkWorld (exec pipe (redis w)) (ticks w + 4) (S (uuids w))
                            (EvExec pipe
                               :: EvWatch (_claim_counter_key queue project)
                               :: EvActive queue project limit :: log w)))
      end
    else Some (Raise (ClaimConflict queue project)
                     (mkWorld (redis w) (ticks w + 2) (S (uuids w)) (log w))).
Proof.
  intros HQ ttl grace claim_id msg_list now pipe.
  unfold pipe, now, msg_list.
  replace (ticks w + 1)%nat with (S (ticks w)) by lia.
  replace (ticks w + 2)%nat with (S (S (ticks w))) by lia.
  replace (ticks w + 3)%nat with (S (S (S (ticks w)))) by lia.
  replace (ticks w + 4)%nat with (S (S (S (S (ticks w))))) by lia.
  rewrite create_unfold, loop_S. simpl.
  case_bool_decide; [|done].
  unfold iteration. rewrite create_iteration_run. simpl. rewrite !HQ.
  destruct (msg_active (clock (S (S (ticks w)))) (redis w) queue project limit);
    [done|].
  by rewrite bool_decide_true.
Qed.

Lemma create_returns_quiet fuel queue metadata project limit w claim_id
    basic_messages w' :
  Quiet →
  create fuel queue metadata project limit w
    = Some (Ok (Some claim_id, basic_messages) w') →
  let ttl := metadata_get metadata "ttl" in
  let grace := metadata_get metadata "grace" in
  let msg_list := msg_active (clock (ticks w + 2)) (redis w) queue project limit in
  let now := clock (ticks w + 3) in
  let pipe := create_pipe queue project claim_id (claim_messages_key claim_id)
                          (claims_set_key queue project) ttl grace now msg_list in
  claim_id = uuid (uuids w) ∧ msg_list ≠ [] ∧
  basic_messages =
    (λ msg, to_basic (claim_message claim_id (now + ttl) (ttl + grace)
                                    (now + ttl + grace) msg) now) <$> msg_list ∧
  w' = mkWorld (exec pipe (redis w)) (ticks w + 4) (S (uuids w))
               (EvExec pipe :: EvWatch (_claim_counter_key queue project)
                  :: EvActive queue project limit :: log w).
Proof.
  intros HQ Hcreate. destruct fuel as [|fuel]; [done|].
  rewrite create_quiet in Hcreate by done. cbv zeta in Hcreate.
  case_bool_decide; [|done].
  destruct (msg_active (clock (ticks w + 2)) (redis w) queue project limit)
    as [|msg rest] eqn:Hlist; [by simplify_eq|].
  cbv zeta. by simplify_eq.
Qed.

(** X1: for a single client, [create] on a queue whose message view yields
    a batch returns the identifier it drew and as many messages as the
    batch has; it adds the identifier to the claims set, writes the claim
    record [{id, t, e}] with [e = now + ttl], appends the ids of the batch
    to the claim's message list in the order of the batch, and adds the
    size of the batch to the claimed counter, all in one EXEC sent after
    one WATCH. *)
Theorem create_commits_claim_and_indexes fuel queue metadata project limit w :
  Quiet →
  clock (ticks w + 1) - clock (ticks w) < RETRY_CLAIM_TIMEOUT →
  msg_active (clock (ticks w + 2)) (redis w) queue project limit ≠ [] →
  let ttl := metadata_get metadata "ttl" in
  let claim_id := uuid (uuids w) in
  let msg_list := msg_active (clock (ticks w + 2)) (redis w) queue project limit in
  let now := clock (ticks w + 3) in
  ∃ basic_messages pipe w',
    create (S fuel) queue metadata project limit w
      = Some (Ok (Some claim_id, basic_messages) w') ∧
    length basic_messages = length msg_list ∧
    log w' = EvExec pipe :: EvWatch (_claim_counter_key queue project)
               :: EvActive queue project limit :: log w ∧
    smembers (redis w') (claims_set_key queue project)
      = smembers (redis w) (claims_set_key queue project) ∪ {[claim_id]} ∧
    hgetall_claim (redis w') claim_id !! "id" = Some (FStr claim_id) ∧
    hgetall_claim (redis w') claim_id !! "t" = Some (FInt ttl) ∧
    hgetall_claim (redis w') claim_id !! "e" = Some (FInt (now + ttl)) ∧
    lrange (redis w') (claim_messages_key claim_id)
      = lrange (redis w) (claim_messages_key claim_id)
        ++ (Message.id <$> msg_list) ∧
    counter (redis w') (_claim_counter_key queue project)
      = counter (redis w) (_claim_counter_key queue project)
        + Z.of_nat (length msg_list).
Proof.
  intros HQ Htest Hbatch ttl claim_id msg_list now.
  pose proof (create_quiet fuel queue metadata project limit w HQ) as Hrun.
  cbv zeta in Hrun. rewrite bool_decide_true in Hrun by done.
  fold msg_list in Hrun, Hbatch.
  destruct msg_list as [|msg rest] eqn:Hlist; [done|]. rewrite <- Hlist in *.
  eexists _, _, _. split; [exact Hrun|]. simpl. split_and!.
  - by rewrite length_fmap.
  - done.
  - apply create_pipe_set.
  - apply create_pipe_record.
  - apply create_pipe_record.
  - apply create_pipe_record.
  - apply create_pipe_list.
  - apply create_pipe_counter.
Qed.

(** The store keeps every message record under its own id, whatever
    pipeline is applied. *)
Lemma exec_keyed_by_id pipe s :
  messages_keyed_by_id s → messages_keyed_by_id (exec pipe s).
Proof.
  induction pipe as [|c pipe IH] using rev_ind; intros Hwf; [done|].
  rewrite exec_snoc. specialize (IH Hwf). intros key msg.
  destruct c; simpl; try apply IH.
  - destruct (decide (Message.id msg0 = key)) as [<-|Hne].
    + rewrite lookup_insert_eq. by intros [= <-].
    + rewrite lookup_insert_ne by done. apply IH.
  - rewrite lookup_delete. case_decide; [done|]. apply IH.
Qed.

Lemma NoDup_fmap_eq {A B} (f : A → B) (l : list A) x y :
  NoDup (f <$> l) → x ∈ l → y ∈ l → f x = f y → x = y.
Proof.
  induction l as [|a l IH]; intros Hnd Hx Hy Hf; [by apply elem_of_nil in Hx|].
  rewrite fmap_cons in Hnd. apply NoDup_cons in Hnd as [Ha Hnd].
  apply elem_of_cons in Hx as [->|Hx]; apply elem_of_cons in Hy as [->|Hy].
  - done.
  - exfalso. apply Ha. rewrite Hf. apply list_elem_of_fmap. eauto.
  - exfalso. apply Ha. rewrite <- Hf. apply list_elem_of_fmap. eauto.
  - by apply IH.
Qed.

Lemma omap_fmap_Some {A B C} (f : B → option C) (g : A → B) (h : A → C)
    (l : list A) :
  (∀ x, x ∈ l → f (g x) = Some (h x)) → omap f (g <$> l) = h <$> l.
Proof.
  induction l as [|a l IH]; intros Hall; [done|].
  rewrite !fmap_cons.
  change (omap f (g a :: (g <$> l))) with
    (match f (g a) with Some y => y :: omap f (g <$> l) | None => omap f (g <$> l) end).
  rewrite (Hall a) by (apply elem_of_cons; by left). rewrite IH; [done|].
  intros x Hx. apply Hall. apply elem_of_cons. by right.
Qed.

(** With distinct ids in the batch, the store holds each message of the
    batch as [create] bound it. *)
Lemma create_pipe_message queue project claim_id claim_key claims_set_key
    ttl grace now msg_list s msg :
  NoDup (Message.id <$> msg_list) →
  msg ∈ msg_list →
  hgetall (exec (create_pipe queue project claim_id claim_key claims_set_key
                             ttl grace now msg_list) s) (Message.id msg) =
    Some (claim_message claim_id (now + ttl) (ttl + grace) (now + ttl + grace) msg).
Proof.
  intros Hnd Hin.
  set (f := claim_message claim_id (now + ttl) (ttl + grace) (now + ttl + grace)).
  assert (∀ m, Message.id (f m) = Message.id m) as Hid
    by (intros m; apply claim_message_bound).
  destruct (create_pipe_stored queue project claim_id claim_key claims_set_key
              ttl grace now msg_list s (f msg)) as (msg' & Hin' & Hl).
  { rewrite written_create_pipe. apply list_elem_of_fmap. eauto. }
  rewrite written_create_pipe in Hin'.
  apply list_elem_of_fmap in Hin' as (msg0 & -> & Hin0).
  rewrite Hid in Hl. rewrite Hl.
  destruct (messages_exec_written _ s (f msg)
              (create_pipe_no_DEL queue project claim_id claim_key
                 claims_set_key ttl grace now msg_list))
    as (msg1 & Hin1 & Hid1 & Hl1).
  { rewrite written_create_pipe. apply list_elem_of_fmap. eauto. }
  rewrite Hid in Hl1. unfold hgetall in Hl. rewrite Hl in Hl1.
  injection Hl1 as <-. fold f in Hid1. rewrite !Hid in Hid1.
  by rewrite (NoDup_fmap_eq Message.id msg_list msg0 msg Hnd Hin0 Hin Hid1).
Qed.

(** *** [create], then [get] or [delete] *)

(** X2: for a single client, a [get] made on the store a [create] left,
    while the claim has not expired, returns the claim's ttl, an age
    counted from the [now] of the [create], and the very messages the
    [create] returned, in the same order, rendered at the time of the
    [get].  (The batch has distinct ids and the generated id had no
    message list before.) *)
Theorem get_after_create fuel queue metadata project limit w claim_id
    basic_messages w' :
  Quiet →
  create fuel queue metadata project limit w
    = Some (Ok (Some claim_id, basic_messages) w') →
  let ttl := metadata_get metadata "ttl" in
  let grace := metadata_get metadata "grace" in
  let msg_list := msg_active (clock (ticks w + 2)) (redis w) queue project limit in
  let created := clock (ticks w + 3) in
  let claimed :=
    claim_message claim_id (created + ttl) (ttl + grace) (created + ttl + grace)
      <$> msg_list in
  NoDup (Message.id <$> msg_list) →
  lrange (redis w) (claim_messages_key claim_id) = [] →
  clock (ticks w') ≤ created + ttl →
  basic_messages = (λ msg, to_basic msg created) <$> claimed ∧
  value (get queue claim_id project w') =
    Some (mkClaimMeta (clock (ticks w' + 2) - created) ttl claim_id,
          (λ msg, to_basic msg (clock (ticks w' + 1))) <$> claimed).
Proof.
  intros HQ Hcreate ttl grace msg_list created claimed Hnd Hfresh Hlive.
  destruct (create_returns_quiet _ _ _ _ _ _ _ _ _ HQ Hcreate)
    as (Hid & Hbatch & Hbasic & Hw').
  fold ttl grace msg_list created in Hbasic, Hw', Hbatch.
  split; [unfold claimed; by rewrite <- list_fmap_compose|].
  assert (hgetall_claim (redis w') claim_id !! "e" = Some (FInt (created + ttl)) ∧
          hgetall_claim (redis w') claim_id !! "t" = Some (FInt ttl) ∧
          claim_id ∈ smembers (redis w') (claims_set_key queue project))
    as (He & Ht & Hm).
  { rewrite Hw'. simpl.
    split_and!; [apply create_pipe_record..|apply create_pipe_member]. }
  assert (value (_exists queue claim_id project w') = Some true) as Hex.
  { rewrite _exists_quiet by done. simpl.
    rewrite bool_decide_true, He by done. simpl.
    by rewrite bool_decide_false by lia. }
  destruct (get_found queue claim_id project w' _ _ HQ Hex He Ht) as [Hget _].
  rewrite Hget. do 3 f_equal; [lia|].
  rewrite Hw'. simpl. rewrite create_pipe_list, Hfresh. simpl.
  apply omap_fmap_Some. intros msg Hin. by apply create_pipe_message.
Qed.

(** X3: for a single client, a [delete] made on the store a [create] left,
    while the claim has not expired, undoes the indexes: the claimed
    counter is back to what it was before the [create], the claim id is
    out of the claims set, the claim record and the message list are gone.
    The messages of the batch are unclaimed again ([claim_id = None],
    [claim_expires] the time of the [delete]) but keep the [ttl] and
    [expires] the [create] gave them. *)
Theorem delete_after_create fuel queue metadata project limit w claim_id
    basic_messages w' :
  Quiet →
  create fuel queue metadata project limit w
    = Some (Ok (Some claim_id, basic_messages) w') →
  let ttl := metadata_get metadata "ttl" in
  let grace := metadata_get metadata "grace" in
  let msg_list := msg_active (clock (ticks w + 2)) (redis w) queue project limit in
  let created := clock (ticks w + 3) in
  messages_keyed_by_id (redis w) →
  NoDup (Message.id <$> msg_list) →
  lrange (redis w) (claim_messages_key claim_id) = [] →
  claim_id ≠ _claim_counter_key queue project →
  claim_messages_key claim_id ≠ _claim_counter_key queue project →
  clock (ticks w') ≤ created + ttl →
  ∃ w'',
    delete queue claim_id project w' = Ok () w'' ∧
    counter (redis w'') (_claim_counter_key queue project)
      = counter (redis w) (_claim_counter_key queue project) ∧
    (claim_id ∉ smembers (redis w'') (claims_set_key queue project)) ∧
    hashes (redis w'') !! claim_id = None ∧
    lists (redis w'') !! claim_messages_key claim_id = None ∧
    ∀ msg, msg ∈ msg_list →
      hgetall (redis w'') (Message.id msg) =
        Some (release_message (clock (ticks w' + 1))
                (claim_message claim_id (created + ttl) (ttl + grace)
                               (created + ttl + grace) msg)).
Proof.
  intros HQ Hcreate ttl grace msg_list created Hwf Hnd Hfresh Hck Hlk Hlive.
  destruct (create_returns_quiet _ _ _ _ _ _ _ _ _ HQ Hcreate)
    as (Hid & Hbatch & Hbasic & Hw').
  fold ttl grace msg_list created in Hbasic, Hw', Hbatch.
  assert (hgetall_claim (redis w') claim_id !! "e" = Some (FInt (created + ttl)) ∧
          claim_id ∈ smembers (redis w') (claims_set_key queue project))
    as (He & Hm).
  { rewrite Hw'. simpl. split; [apply create_pipe_record|apply create_pipe_member]. }
  assert (value (_exists queue claim_id project w') = Some true) as Hex.
  { rewrite _exists_quiet by done. simpl.
    rewrite bool_decide_true, He by done. simpl.
    by rewrite bool_decide_false by lia. }
  assert (lrange (redis w') (claim_messages_key claim_id) = Message.id <$> msg_list)
    as Hlist.
  { rewrite Hw'. simpl. by rewrite create_pipe_list, Hfresh. }
  assert (messages_keyed_by_id (redis w')) as Hwf'.
  { rewrite Hw'. simpl. by apply exec_keyed_by_id. }
  pose proof (delete_found _ _ _ _ HQ Hex) as Hrun. simpl in Hrun.
  eexists. split; [exact Hrun|]. simpl. split_and!.
  - rewrite delete_pipe_counter by done. rewrite Hlist, length_fmap.
    rewrite Hw'. simpl. rewrite create_pipe_counter. lia.
  - apply delete_pipe_set.
  - apply delete_pipe_hash.
  - apply delete_pipe_list.
  - intros msg Hin. apply delete_pipe_message; [done| |].
    + rewrite Hlist. apply list_elem_of_fmap. eauto.
    + rewrite Hw'. simpl. by apply create_pipe_message.
Qed.

(** *** What [update] and [delete] leave alone *)

(** A key under which the pipeline writes no message and which it does not
    delete keeps its message record. *)
Lemma messages_exec_untouched pipe s key :
  Forall (λ c, is_DEL c = false) pipe →
  (∀ msg, msg ∈ written pipe → Message.id msg ≠ key) →
  messages (exec pipe s) !! key = messages s !! key.
Proof.
  induction pipe as [|c pipe IH] using rev_ind; intros Hdel Hkey; [done|].
  apply Forall_app in Hdel as [Hdel Hc]. rewrite Forall_singleton in Hc.
  rewrite exec_snoc.
  assert (messages (exec pipe s) !! key = messages s !! key) as <-.
  { apply IH; [done|]. intros msg Hin. apply Hkey. rewrite written_app.
    apply elem_of_app. by left. }
  destruct c; simpl in *; try done.
  apply lookup_insert_ne, Hkey. rewrite written_app. apply elem_of_app. right.
  by apply list_elem_of_singleton.
Qed.

Lemma update_pipe_frame claim_id claim_ttl grace now s :
  let s' := exec (update_pipe claim_id claim_ttl grace now s) s in
  sets s' = sets s ∧ lists s' = lists s ∧ counters s' = counters s ∧
  (∀ key, key ≠ claim_id → hashes s' !! key = hashes s !! key) ∧
  (∀ f, f ≠ "t" → f ≠ "e" →
        hgetall_claim s' claim_id !! f = hgetall_claim s claim_id !! f) ∧
  hgetall_claim s' claim_id !! "t" = Some (FInt claim_ttl).
Proof.
  cbv zeta. unfold update_pipe. rewrite exec_snoc.
  match goal with
  | |- context [exec ?p s] =>
      destruct (exec_messages_only p s) as (Hs & Hl & Hh & Hc);
        [apply Forall_TO_REDIS|]
  end.
  unfold hgetall_claim. simpl. rewrite Hs, Hl, Hh, Hc. split_and!; try done.
  - intros key Hkey. by rewrite lookup_insert_ne.
  - intros f Ht He. rewrite lookup_insert_eq. simpl.
    rewrite !lookup_insert_ne by congruence.
    unfold hgetall_claim. by rewrite Hh.
  - rewrite lookup_insert_eq. simpl. rewrite lookup_insert_ne by done.
    apply lookup_insert_eq.
Qed.

Lemma update_pipe_other_message claim_id claim_ttl grace now s key :
  messages_keyed_by_id s →
  hgetall s key = None ∨ key ∉ lrange s (claim_messages_key claim_id) →
  hgetall (exec (update_pipe claim_id claim_ttl grace now s) s) key
    = hgetall s key.
Proof.
  intros Hwf Hkey. apply messages_exec_untouched.
  - apply update_pipe_no_DEL.
  - intros msg Hin Hid. unfold update_pipe in Hin.
    rewrite written_app, written_TO_REDIS in Hin. simpl in Hin.
    rewrite app_nil_r in Hin.
    apply list_elem_of_fmap in Hin as (msg0 & -> & Hin).
    apply list_elem_of_omap in Hin as (key0 & Hin0 & Hmsg0).
    assert (Message.id msg0 = key) as Hid0.
    { rewrite <- Hid. symmetry. apply claim_message_bound. }
    rewrite (Hwf _ _ Hmsg0) in Hid0. subst key0.
    destruct Hkey as [Hnone|Hout]; [|done].
    unfold hgetall in *. congruence.
Qed.

(** X4: [update] of a live claim is one atomic batch that rewrites the
    messages of the claim's list and the fields [t] and [e] of the claim
    record, and nothing else: the claims set, every message list, the
    claimed counter, the other claim records, the other fields of this
    record (its [id]) and the messages outside the claim's list are what
    they were.  No WATCH is sent. *)
Theorem update_touches_only_its_claim queue claim_id metadata project w :
  Quiet →
  messages_keyed_by_id (redis w) →
  value (_exists queue claim_id project w) = Some true →
  ∃ pipe reads w',
    update queue claim_id metadata project w = Ok () w' ∧
    log w' = EvExec pipe :: reads ++ log w ∧
    Forall (λ ev, is_write ev = false ∧ ∀ key, ev ≠ EvWatch key) reads ∧
    sets (redis w') = sets (redis w) ∧
    lists (redis w') = lists (redis w) ∧
    counters (redis w') = counters (redis w) ∧
    (∀ key, key ≠ claim_id → hashes (redis w') !! key = hashes (redis w) !! key) ∧
    (∀ f, f ≠ "t" → f ≠ "e" →
          hgetall_claim (redis w') claim_id !! f
            = hgetall_claim (redis w) claim_id !! f) ∧
    (∀ key, key ∉ lrange (redis w) (claim_messages_key claim_id) →
            hgetall (redis w') key = hgetall (redis w) key).
Proof.
  intros HQ Hwf Hex.
  pose proof (update_found _ _ metadata _ _ HQ Hex) as Hrun. simpl in Hrun.
  eexists _, (log (fetched (lrange (redis w) (claim_messages_key claim_id))
    (asked (EvLrange (claim_messages_key claim_id))
       (ticked (asked (EvHmget claim_id ["e"])
          (asked (EvSismember (claims_set_key queue project) claim_id)
             (mkWorld (redis w) (ticks w) (uuids w) []))))))), _.
  split; [exact Hrun|]. simpl.
  destruct (update_pipe_frame claim_id (metadata_get metadata "ttl")
              (metadata_get metadata "grace") (clock (ticks w + 1)) (redis w))
    as (Hs & Hl & Hc & Hh & Hf & _).
  split_and!; try done.
  - by destruct (lrange (redis w) (claim_messages_key claim_id)).
  - destruct (lrange (redis w) (claim_messages_key claim_id));
      repeat constructor; done.
  - intros key Hkey. apply update_pipe_other_message; [done|by right].
Qed.

Lemma delete_pipe_frame queue claim_id project now s key :
  key ≠ claim_id → key ≠ claim_messages_key claim_id →
  let s' := exec (delete_pipe queue claim_id project now s) s in
  hashes s' !! key = hashes s !! key ∧ lists s' !! key = lists s !! key ∧
  (key ≠ claims_set_key queue project → sets s' !! key = sets s !! key) ∧
  (messages_keyed_by_id s → key ∉ lrange s (claim_messages_key claim_id) →
   hgetall s' key = hgetall s key).
Proof.
  intros Hc Hl. cbv zeta. split_and!.
  - rewrite delete_pipe_split. simpl.
    destruct (exec_messages_only (delete_releases claim_id now s)
                (delete_dropped queue claim_id project s)) as (_ & _ & -> & _).
    { apply Forall_TO_REDIS. }
    unfold delete_dropped, exec. simpl. by rewrite !lookup_delete_ne.
  - rewrite delete_pipe_split. simpl.
    destruct (exec_messages_only (delete_releases claim_id now s)
                (delete_dropped queue claim_id project s)) as (_ & -> & _).
    { apply Forall_TO_REDIS. }
    unfold delete_dropped, exec. simpl. by rewrite !lookup_delete_ne.
  - intros Hs. rewrite delete_pipe_split. simpl.
    destruct (exec_messages_only (delete_releases claim_id now s)
                (delete_dropped queue claim_id project s)) as (-> & _).
    { apply Forall_TO_REDIS. }
    unfold delete_dropped, exec. simpl.
    by rewrite !lookup_delete_ne, lookup_insert_ne.
  - intros Hwf Hout. unfold delete_pipe. rewrite <- app_assoc, exec_app.
    unfold hgetall. etransitivity.
    + apply messages_exec_untouched.
      * apply Forall_app. split; [|by repeat constructor].
        apply Forall_fmap, Forall_true. done.
      * intros msg Hin Hid. rewrite written_app, written_TO_REDIS in Hin.
        simpl in Hin. rewrite app_nil_r in Hin.
        apply list_elem_of_fmap in Hin as (msg0 & -> & Hin).
        apply list_elem_of_omap in Hin as (key0 & Hin0 & Hmsg0).
        simpl in Hid. rewrite (Hwf _ _ Hmsg0) in Hid. by subst key0.
    + unfold exec. simpl. by rewrite !lookup_delete_ne.
Qed.

(** X5: [delete] of a live claim touches that claim only: the other ids of
    the claims set stay in it, the other claim records and message lists
    are what they were, and so is every message outside the claim's list.
    (The claim's two keys are not the key of the claims set.) *)
Theorem delete_touches_only_its_claim queue claim_id project w :
  Quiet →
  messages_keyed_by_id (redis w) →
  claims_set_key queue project ≠ claim_id →
  claims_set_key queue project ≠ claim_messages_key claim_id →
  value (_exists queue claim_id project w) = Some true →
  ∃ w',
    delete queue claim_id project w = Ok () w' ∧
    (∀ other, other ≠ claim_id →
       (other ∈ smembers (redis w') (claims_set_key queue project) ↔
        other ∈ smembers (redis w) (claims_set_key queue project))) ∧
    (∀ key, key ≠ claim_id → key ≠ claim_messages_key claim_id →
       hashes (redis w') !! key = hashes (redis w) !! key ∧
       lists (redis w') !! key = lists (redis w) !! key ∧
       (key ∉ lrange (redis w) (claim_messages_key claim_id) →
        hgetall (redis w') key = hgetall (redis w) key)).
Proof.
  intros HQ Hwf Hsc Hsl Hex.
  pose proof (delete_found _ _ _ _ HQ Hex) as Hrun. simpl in Hrun.
  eexists. split; [exact Hrun|]. simpl. split.
  - intros other Hother. rewrite delete_pipe_split. unfold smembers. simpl.
    match goal with
    | |- context [exec ?p ?s0] =>
        destruct (exec_messages_only p s0) as (-> & _); [apply Forall_TO_REDIS|]
    end.
    unfold delete_dropped, exec. simpl.
    rewrite !lookup_delete_ne, lookup_insert_eq by done. simpl.
    rewrite elem_of_difference, elem_of_singleton. unfold smembers.
    split; [by intros [? _]|by intros ?; split].
  - intros key Hc Hl.
    destruct (delete_pipe_frame queue claim_id project (clock (ticks w + 1))
                (redis w) key Hc Hl) as (Hh & Hli & _ & Hm).
    split_and!; [done|done|]. intros Hout. by apply Hm.
Qed.

(** *** Errors *)

(** X6: when the existence check says no, [update] raises
    ClaimDoesNotExist with the arguments [(claim_id, queue, project)], in
    that order, where [get] passes [(queue, project, claim_id)]; neither
    writes anything. *)
Theorem update_of_absent_claim_raises queue claim_id metadata project w :
  Quiet →
  value (_exists queue claim_id project w) = Some false →
  raised (update queue claim_id metadata project w)
    = Some (ClaimDoesNotExist (Some claim_id) (Some queue) project) ∧
  raised (get queue claim_id project w)
    = Some (ClaimDoesNotExist (Some queue) project (Some claim_id)) ∧
  redis (world_of (update queue claim_id metadata project w)) = redis w ∧
  redis (world_of (get queue claim_id project w)) = redis w.
Proof.
  intros HQ Hex.
  destruct (_exists_false _ _ _ _ HQ Hex) as (w' & reads & Hrun & Hs & _).
  unfold update, get, mbind, M_bind. rewrite Hrun. by simpl.
Qed.

(** X7: when the claim id is in the claims set but the claim record has no
    field [e] (the record is gone), the existence check does not answer:
    [int(None)] raises TypeError, and [get], [update] and [delete] all end
    with that TypeError, [delete] included, without writing anything. *)
Theorem stale_member_without_record_raises_TypeError queue claim_id metadata
    project w :
  Quiet →
  claim_id ∈ smembers (redis w) (claims_set_key queue project) →
  hgetall_claim (redis w) claim_id !! "e" = None →
  raised (_exists queue claim_id project w) = Some TypeError ∧
  raised (get queue claim_id project w) = Some TypeError ∧
  raised (update queue claim_id metadata project w) = Some TypeError ∧
  raised (delete queue claim_id project w) = Some TypeError ∧
  redis (world_of (get queue claim_id project w)) = redis w ∧
  redis (world_of (update queue claim_id metadata project w)) = redis w ∧
  redis (world_of (delete queue claim_id project w)) = redis w.
Proof.
  intros HQ Hm He.
  pose proof (_exists_quiet queue claim_id project w HQ) as Hrun.
  cbv zeta in Hrun. rewrite bool_decide_true, He in Hrun by done.
  unfold get, update, delete, mbind, M_bind. rewrite Hrun. by simpl.
Qed.

(** *** The loop of [create] *)

Lemma loop_more_fuel queue project limit claim_id ttl grace start_ts fuel more
    w r :
  loop queue project limit claim_id ttl grace start_ts fuel w = Some r →
  loop queue project limit claim_id ttl grace start_ts (fuel + more) w = Some r.
Proof.
  revert w. induction fuel as [|fuel IH]; intros w; [done|].
  rewrite Nat.add_succ_l, !loop_S. case_bool_decide; [|done].
  destruct (iteration _ _ _ _ _ _ _) as [[?|] ?|]; try done. apply IH.
Qed.

(** X8: [create] ends.  Once the clock readings stay at least
    [RETRY_CLAIM_TIMEOUT] past the first one from some reading [k] on, a
    run with fuel [k + 1] gives a result (a return or ClaimConflict), and
    a run that gave a result gives the same one with any more fuel. *)
Theorem create_terminates (k : nat) queue metadata project limit w :
  (∀ n, (k ≤ n)%nat → RETRY_CLAIM_TIMEOUT ≤ clock n - clock (ticks w)) →
  (∃ r, create (S k) queue metadata project limit w = Some r) ∧
  ∀ fuel more r,
    create fuel queue metadata project limit w = Some r →
    create (fuel + more) queue metadata project limit w = Some r.
Proof.
  intros Hlate. split.
  - rewrite create_unfold. apply (loop_terminates _ _ _ _ _ _ _ k); [done|].
    simpl. lia.
  - intros fuel more r. rewrite !create_unfold. apply loop_more_fuel.
Qed.

Lemma commits_app evs1 evs2 : commits (evs1 ++ evs2) = (commits evs1 + commits evs2)%nat.
Proof. unfold commits. by rewrite filter_app, length_app. Qed.

Lemma iteration_commits queue project limit claim_id ttl grace w f w' :
  iteration queue project limit claim_id ttl grace w = Ok f w' →
  ∃ evs, log w' = evs ++ log w ∧
         commits evs = match f with Return (Some _, _) => 1 | _ => 0 end%nat.
Proof.
  unfold iteration. rewrite create_iteration_run.
  destruct (msg_active _ _ _ _ _).
  - intros [= <- <-]. by exists [EvActive queue project limit].
  - case_bool_decide; intros [= <- <-]; by eexists [_; _; _].
Qed.

Lemma loop_commits queue project limit claim_id ttl grace start_ts fuel w r :
  loop queue project limit claim_id ttl grace start_ts fuel w = Some r →
  ∃ evs, log (world_of r) = evs ++ log w ∧ commits evs = committed r.
Proof.
  revert w. induction fuel as [|fuel IH]; intros w; [done|].
  rewrite loop_S. case_bool_decide.
  - destruct (iteration _ _ _ _ _ _ _) as [f w1|e w1] eqn:Hiter.
    + apply iteration_commits in Hiter as (evs1 & Hlog1 & Hc1). simpl in Hlog1.
      destruct f as [[[c|] b]|].
      * intros [= <-]. by exists evs1.
      * intros [= <-]. by exists evs1.
      * intros Hloop. apply IH in Hloop as (evs2 & Hlog2 & Hc2).
        exists (evs2 ++ evs1). rewrite Hlog2, Hlog1, commits_app, Hc1, Hc2.
        split; [by rewrite app_assoc|lia].
    + by apply iteration_never_raises in Hiter.
  - intros [= <-]. by exists [].
Qed.

(** X9: a run of [create] commits at most once.  However many turns the
    loop took, the server applied exactly one of its pipelines when it
    returns a claim id, and none when it returns [(None, [])] or raises
    ClaimConflict. *)
Theorem create_commits_at_most_once fuel queue metadata project limit w r :
  create fuel queue metadata project limit w = Some r →
  ∃ evs, log (world_of r) = evs ++ log w ∧
         commits evs = match r with Ok (Some _, _) _ => 1 | _ => 0 end%nat.
Proof.
  rewrite create_unfold. intros Hloop.
  apply loop_commits in Hloop as (evs & Hlog & Hc). by exists evs.
Qed.

(** *** [delete] or [update], then [get] *)

(** X10: once [delete] has removed a claim, the claim does not exist for
    any later call on that store, whatever the clock says: the existence
    check says no, [get] and [update] raise ClaimDoesNotExist. *)
Theorem claim_gone_after_delete queue claim_id metadata project w :
  Quiet →
  value (_exists queue claim_id project w) = Some true →
  ∃ w',
    delete queue claim_id project w = Ok () w' ∧
    ∀ w_later,
      redis w_later = redis w' →
      value (_exists queue claim_id project w_later) = Some false ∧
      raised (get queue claim_id project w_later)
        = Some (ClaimDoesNotExist (Some queue) project (Some claim_id)) ∧
      raised (update queue claim_id metadata project w_later)
        = Some (ClaimDoesNotExist (Some claim_id) (Some queue) project).
Proof.
  intros HQ Hex.
  pose proof (delete_found _ _ _ _ HQ Hex) as Hrun. simpl in Hrun.
  eexists. split; [exact Hrun|]. simpl. intros w_later Hs.
  assert (value (_exists queue claim_id project w_later) = Some false) as Hno.
  { apply _exists_not_member; [done|]. rewrite Hs. apply delete_pipe_set. }
  split; [done|]. split; [by apply get_not_found|].
  destruct (_exists_false _ _ _ _ HQ Hno) as (w1 & reads & Hrun1 & _).
  unfold update, mbind, M_bind. by rewrite Hrun1.
Qed.

Lemma omap_fmap_option {A B} (f g : A → option B) (h : B → B) (l : list A) :
  (∀ x, x ∈ l → g x = h <$> f x) → omap g l = h <$> omap f l.
Proof.
  induction l as [|a l IH]; intros Hall; [done|].
  change (omap g (a :: l)) with
    (match g a with Some y => y :: omap g l | None => omap g l end).
  change (omap f (a :: l)) with
    (match f a with Some y => y :: omap f l | None => omap f l end).
  rewrite (Hall a) by (apply elem_of_cons; by left).
  rewrite IH by (intros x Hx; apply Hall, elem_of_cons; by right).
  by destruct (f a).
Qed.

(** X11: for a single client, a [get] made on the store an [update] left,
    while the renewed claim has not expired, returns the new ttl, an age
    counted from the [now] of the [update], and the messages of the
    claim's list that were in the store, each as the [update] bound it. *)
Theorem get_after_update queue claim_id metadata project w :
  Quiet →
  messages_keyed_by_id (redis w) →
  value (_exists queue claim_id project w) = Some true →
  let ttl := metadata_get metadata "ttl" in
  let grace := metadata_get metadata "grace" in
  let updated := clock (ticks w + 1) in
  ∃ w',
    update queue claim_id metadata project w = Ok () w' ∧
    (clock (ticks w') ≤ updated + ttl →
     value (get queue claim_id project w') =
       Some (mkClaimMeta (clock (ticks w' + 2) - updated) ttl claim_id,
             (λ msg, to_basic msg (clock (ticks w' + 1))) <$>
               (claim_message claim_id (updated + ttl) (ttl + grace)
                              (updated + ttl + grace) <$>
                  omap (hgetall (redis w))
                       (lrange (redis w) (claim_messages_key claim_id))))).
Proof.
  intros HQ Hwf Hex ttl grace updated.
  pose proof (update_found _ _ metadata _ _ HQ Hex) as Hrun. simpl in Hrun.
  eexists. split; [exact Hrun|]. simpl. intros Hlive.
  fold ttl grace updated in Hlive |- *.
  set (s' := exec (update_pipe claim_id ttl grace updated (redis w)) (redis w))
    in *.
  set (w' := mkWorld s' (ticks w + 2) (uuids w) _).
  destruct (update_pipe_frame claim_id ttl grace updated (redis w))
    as (Hs & Hl & _ & _ & _ & Ht).
  fold s' in Hs, Hl, Ht.
  pose proof (update_pipe_record claim_id ttl grace updated (redis w)) as He.
  fold s' in He.
  destruct (_exists_true _ _ _ _ HQ Hex) as (_ & Hm & _).
  assert (value (_exists queue claim_id project w') = Some true) as Hex'.
  { rewrite _exists_quiet by done. simpl.
    rewrite bool_decide_true; [|by unfold smembers; rewrite Hs].
    rewrite He. simpl. by rewrite bool_decide_false by lia. }
  destruct (get_found queue claim_id project w' _ _ HQ Hex' He Ht) as [Hget _].
  rewrite Hget. simpl. do 3 f_equal; [lia|].
  unfold lrange. rewrite Hl. apply omap_fmap_option. intros key Hkey.
  destruct (hgetall (redis w) key) as [msg|] eqn:Hmsg.
  - by apply update_pipe_message.
  - simpl. unfold s'. rewrite update_pipe_other_message; [done|done|by left].
Qed.

(** *** Reads *)

Lemma reads_only_ret {A} (a : A) : reads_only (mret a).
Proof. intros w. by exists []. Qed.

Lemma reads_only_raise {A} e : reads_only (@raise A e).
Proof. intros w. by exists []. Qed.

Lemma reads_only_bind {A B} (m : M A) (k : A → M B) :
  reads_only m → (∀ a, reads_only (k a)) → reads_only (m ≫= k).
Proof.
  intros Hm Hk w. destruct (Hm w) as (r1 & Hl1 & Hf1 & Hs1).
  unfold mbind, M_bind. destruct (m w) as [a w1|e w1]; simpl in *.
  - destruct (Hk a w1) as (r2 & Hl2 & Hf2 & Hs2).
    exists (r2 ++ r1). rewrite Hl2, Hl1. split_and!.
    + by rewrite app_assoc.
    + by apply Forall_app.
    + intros HQ. by rewrite Hs2, Hs1.
  - by exists r1.
Qed.

Lemma reads_only_query {A} ev (f : Store → A) :
  is_write ev = false → reads_only (query ev f).
Proof.
  intros Hev w. exists [ev]. simpl. split_and!; [done|by constructor|].
  intros HQ. apply HQ.
Qed.

Lemma reads_only_utcnow_ts : reads_only utcnow_ts.
Proof. intros w. by exists []. Qed.

Lemma reads_only_mapM_int values : reads_only (mapM int values).
Proof.
  induction values as [|v values IH]; [apply reads_only_ret|].
  simpl. apply reads_only_bind.
  - destruct v as [[?|?]|]; [apply reads_only_ret|apply reads_only_raise..].
  - intros b. apply reads_only_bind; [done|]. intros bs. apply reads_only_ret.
Qed.

Lemma reads_only__get_claim_info claim_id fields :
  reads_only (_get_claim_info claim_id fields).
Proof.
  apply reads_only_bind; [by apply reads_only_query|].
  intros values. apply reads_only_mapM_int.
Qed.

Lemma reads_only__exists queue claim_id project :
  reads_only (_exists queue claim_id project).
Proof.
  apply reads_only_bind; [by apply reads_only_query|]. intros member.
  destruct member; simpl; [|apply reads_only_ret].
  apply reads_only_bind; [apply reads_only__get_claim_info|]. intros info.
  destruct info; [apply reads_only_raise|].
  apply reads_only_bind; [apply reads_only_utcnow_ts|]. intros now.
  case_bool_decide; apply reads_only_ret.
Qed.

Lemma reads_only_get queue claim_id project :
  reads_only (get queue claim_id project).
Proof.
  apply reads_only_bind; [apply reads_only__exists|]. intros found.
  destruct found; simpl; [|apply reads_only_raise].
  apply reads_only_bind; [by apply reads_only_query|]. intros msg_keys.
  apply reads_only_bind.
  { destruct msg_keys; [apply reads_only_ret|by apply reads_only_query]. }
  intros raw_messages.
  apply reads_only_bind; [apply reads_only_utcnow_ts|]. intros now.
  apply reads_only_bind; [apply reads_only_utcnow_ts|]. intros now'.
  apply reads_only_bind; [apply reads_only__get_claim_info|]. intros info.
  destruct info as [|expires [|ttl [|? ?]]];
    first [apply reads_only_ret|apply reads_only_raise].
Qed.

(** X12: [get] only reads.  Whatever the world it runs in, whatever the
    other clients do and however it ends (a return, ClaimDoesNotExist, or
    an error on an ill-formed record), every round trip it makes is a
    read, none is an EXEC; with no other client at work the store it
    leaves is the store it found.  The same holds of the existence
    check. *)
Theorem get_never_writes queue claim_id project w :
  (∃ reads,
     log (world_of (get queue claim_id project w)) = reads ++ log w ∧
     Forall (λ ev, is_write ev = false) reads ∧
     (Quiet → redis (world_of (get queue claim_id project w)) = redis w)) ∧
  (∃ reads,
     log (world_of (_exists queue claim_id project w)) = reads ++ log w ∧
     Forall (λ ev, is_write ev = false) reads ∧
     (Quiet → redis (world_of (_exists queue claim_id project w)) = redis w)).
Proof. split; [apply reads_only_get|apply reads_only__exists]. Qed.

(** *** The counter and the lists *)

Lemma sum_list_with_ext {A} (f g : A → nat) (l : list A) :
  (∀ x, x ∈ l → f x = g x) → sum_list_with f l = sum_list_with g l.
Proof.
  induction l as [|a l IH]; intros Hall; [done|]. simpl.
  rewrite (Hall a) by (apply elem_of_cons; by left).
  rewrite IH; [done|]. intros x Hx. apply Hall, elem_of_cons. by right.
Qed.

Lemma listed_ext s s' queue project :
  sets s' = sets s → lists s' = lists s →
  listed s' queue project = listed s queue project.
Proof. intros Hs Hl. unfold listed, smembers, lrange. by rewrite Hs, Hl. Qed.

Lemma create_pipe_other_list queue project claim_id ttl grace now msg_list s key :
  key ≠ claim_messages_key claim_id →
  lists (exec (create_pipe queue project claim_id (claim_messages_key claim_id)
                 (claims_set_key queue project) ttl grace now msg_list) s) !! key
    = lists s !! key.
Proof.
  intros Hkey. unfold create_pipe. rewrite !exec_snoc. simpl.
  by apply exec_claim_commands.
Qed.

Lemma create_pipe_listed queue project claim_id ttl grace now msg_list s :
  Inj (=) (=) claim_messages_key →
  claim_id ∉ smembers s (claims_set_key queue project) →
  lrange s (claim_messages_key claim_id) = [] →
  listed (exec (create_pipe queue project claim_id (claim_messages_key claim_id)
                  (claims_set_key queue project) ttl grace now msg_list) s)
         queue project
    = (length msg_list + listed s queue project)%nat.
Proof.
  intros Hinj Hfresh Hlist. unfold listed.
  rewrite create_pipe_set, (union_comm_L _ {[claim_id]}).
  rewrite elements_union_singleton by done. simpl.
  rewrite create_pipe_list, Hlist. simpl. rewrite length_fmap. f_equal.
  apply sum_list_with_ext. intros c Hc. apply elem_of_elements in Hc.
  unfold lrange. rewrite create_pipe_other_list; [done|].
  intros Heq. apply Hinj in Heq. by subst c.
Qed.

Lemma delete_pipe_set_eq queue claim_id project now s :
  claims_set_key queue project ≠ claim_id →
  claims_set_key queue project ≠ claim_messages_key claim_id →
  smembers (exec (delete_pipe queue claim_id project now s) s)
           (claims_set_key queue project)
    = smembers s (claims_set_key queue project) ∖ {[claim_id]}.
Proof.
  intros Hc Hl. rewrite delete_pipe_split. unfold smembers. simpl.
  destruct (exec_messages_only (delete_releases claim_id now s)
              (delete_dropped queue claim_id project s)) as (-> & _).
  { apply Forall_TO_REDIS. }
  unfold delete_dropped, exec. simpl.
  by rewrite !lookup_delete_ne, lookup_insert_eq.
Qed.

Lemma delete_pipe_listed queue claim_id project now s :
  Inj (=) (=) claim_messages_key →
  claim_id ∈ smembers s (claims_set_key queue project) →
  claims_set_key queue project ≠ claim_id →
  claims_set_key queue project ≠ claim_messages_key claim_id →
  (∀ other, claim_messages_key other ≠ claim_id) →
  listed s queue project
    = (length (lrange s (claim_messages_key claim_id))
       + listed (exec (delete_pipe queue claim_id project now s) s) queue project)%nat.
Proof.
  intros Hinj Hm Hsc Hsl Hother. unfold listed.
  rewrite delete_pipe_set_eq by done.
  rewrite (union_difference_singleton_L claim_id (smembers s _) Hm) at 1.
  rewrite elements_union_singleton by (rewrite elem_of_difference, elem_of_singleton; by intros [_ ?]).
  simpl. f_equal.
  apply sum_list_with_ext. intros c Hc. apply elem_of_elements in Hc.
  apply elem_of_difference in Hc as [_ Hc]. rewrite elem_of_singleton in Hc.
  unfold lrange.
  destruct (delete_pipe_frame queue claim_id project now s
              (claim_messages_key c)) as (_ & -> & _); [apply Hother| |done].
  intros Heq. by apply Hinj in Heq.
Qed.

(** X13: for a single client, every operation that returns keeps the
    claimed counter of the queue equal to the number of message ids that
    the claims of its claims set list: [create] adds the size of its batch
    to both, [update] touches neither, [delete] takes the length of the
    claim's list off both.  (The identifier [create] draws is new, the
    keys of a claim are not those of the set and of the counter, and
    distinct claims have distinct list keys.) *)
Theorem counter_matches_lists_is_kept queue project :
  Quiet →
  Inj (=) (=) claim_messages_key →
  (∀ fuel metadata limit w r w',
     counter_matches_lists (redis w) queue project →
     uuid (uuids w) ∉ smembers (redis w) (claims_set_key queue project) →
     lrange (redis w) (claim_messages_key (uuid (uuids w))) = [] →
     create fuel queue metadata project limit w = Some (Ok r w') →
     counter_matches_lists (redis w') queue project) ∧
  (∀ claim_id metadata w w',
     counter_matches_lists (redis w) queue project →
     update queue claim_id metadata project w = Ok () w' →
     counter_matches_lists (redis w') queue project) ∧
  (∀ claim_id w w',
     counter_matches_lists (redis w) queue project →
     claims_set_key queue project ≠ claim_id →
     claims_set_key queue project ≠ claim_messages_key claim_id →
     _claim_counter_key queue project ≠ claim_id →
     _claim_counter_key queue project ≠ claim_messages_key claim_id →
     (∀ other, claim_messages_key other ≠ claim_id) →
     delete queue claim_id project w = Ok () w' →
     counter_matches_lists (redis w') queue project).
Proof.
  intros HQ Hinj. split_and!.
  - intros fuel metadata limit w r w' Hinv Hnew Hlist Hcreate.
    destruct fuel as [|fuel]; [done|].
    rewrite create_quiet in Hcreate by done. cbv zeta in Hcreate.
    case_bool_decide; [|done].
    destruct (msg_active (clock (ticks w + 2)) (redis w) queue project limit)
      as [|msg rest]; injection Hcreate as <- <-; [done|].
    unfold counter_matches_lists in *. simpl.
    rewrite create_pipe_counter, create_pipe_listed, Hinv by done. lia.
  - intros claim_id metadata w w' Hinv Hupdate.
    assert (value (_exists queue claim_id project w) = Some true) as Hex.
    { unfold update, mbind, M_bind in Hupdate.
      by destruct (_exists queue claim_id project w) as [[|] ?|]. }
    pose proof (update_found _ _ metadata _ _ HQ Hex) as Hrun. simpl in Hrun.
    rewrite Hrun in Hupdate. injection Hupdate as <-.
    unfold counter_matches_lists in *. simpl.
    match goal with
    | |- context [update_pipe ?c ?t ?g ?n ?s0] =>
        destruct (update_pipe_frame c t g n s0) as (Hs & Hl & Hc & _)
    end.
    rewrite (listed_ext (redis w)) by done. unfold counter. by rewrite Hc.
  - intros claim_id w w' Hinv Hsc Hsl Hcc Hcl Hother Hdelete.
    destruct (_exists queue claim_id project w) as [[|] w1|e w1] eqn:Hrun.
    + assert (value (_exists queue claim_id project w) = Some true) as Hex
        by by rewrite Hrun.
      destruct (_exists_true _ _ _ _ HQ Hex) as (_ & Hm & _).
      pose proof (delete_found _ _ _ _ HQ Hex) as Hfound. simpl in Hfound.
      rewrite Hfound in Hdelete. injection Hdelete as <-.
      unfold counter_matches_lists in *. simpl.
      rewrite delete_pipe_counter by done. rewrite Hinv.
      rewrite (delete_pipe_listed queue claim_id project (clock (ticks w + 1))
                 (redis w)) at 1 by done.
      lia.
    + assert (value (_exists queue claim_id project w) = Some false) as Hex
        by by rewrite Hrun.
      destruct (delete_not_found _ _ _ _ HQ Hex) as (w2 & reads & Hnf & Hs & _).
      rewrite Hnf in Hdelete. injection Hdelete as <-.
      unfold counter_matches_lists in *. by rewrite Hs.
    + unfold delete, mbind, M_bind in Hdelete. by rewrite Hrun in Hdelete.
Qed.

End Compositions.

(** ** The theorems at work on the queue of the scenario *)

Module Runs.
Import Scenario.

Lemma still_quiet : @Quiet still.
Proof. by intros n s. Qed.

Lemma ticking_quiet : @Quiet ticking.
Proof. by intros n s. Qed.

Lemma still_monotone : @Monotone still.
Proof. intros m n _. simpl. lia. Qed.

Lemma keyed_by_id (w : World) :
  bool_decide (map_Forall (λ key msg, Message.id msg = key)
                          (messages (redis w))) = true →
  messages_keyed_by_id (redis w).
Proof. intros Hw. by apply bool_decide_eq_true in Hw. Qed.

(** *** C5: the batch is read before the counter is watched *)

(** C5 (the code departs from it): [create] reads the active batch first
    and sends WATCH afterwards.  A rival's [create] that commits in
    between is not noticed: our [create] commits too, and both claims are
    live with the same two messages in their lists, the counter says 4.
    Had the rival committed after WATCH, EXEC is refused and the next turn
    finds nothing left to claim. *)
Theorem create_watches_after_reading_the_batch :
  let between_read_and_watch :=
    @create collaborators (race 1) 1 "fizbit" ∅ project 5 (start fresh) in
  let between_watch_and_exec :=
    @create collaborators (race 2) 2 "fizbit" ∅ project 5 (start fresh) in
  let s := redis (after between_read_and_watch) in
  (∃ basic_messages pipe,
     answer between_read_and_watch = Some (Some "c0", basic_messages) ∧
     log (after between_read_and_watch) =
       [EvExec pipe; EvWatch counter_key; EvActive "fizbit" project 5]) ∧
  lrange s "rival.messages" = ["m1"; "m2"] ∧
  lrange s "c0.messages" = ["m1"; "m2"] ∧
  value (@_exists collaborators still "fizbit" "rival" project (start s))
    = Some true ∧
  value (@_exists collaborators still "fizbit" "c0" project (start s))
    = Some true ∧
  counter s counter_key = 4 ∧
  answer between_watch_and_exec = Some (None, []) ∧
  ∃ pipe,
    log (after between_watch_and_exec) =
      [EvActive "fizbit" project 5; EvAbort pipe; EvWatch counter_key;
       EvActive "fizbit" project 5].
Proof.
  split_and!; try (vm_compute; reflexivity).
  - eexists _, _. split; vm_compute; reflexivity.
  - eexists. vm_compute. reflexivity.
Qed.

(** *** The theorems at work on the queue *)

(** C1 on the queue: the first [create] (ttl and grace of 60, at time 100)
    and an [update] of that claim with [ttl = 20]. *)
Lemma claim_binds_and_extends_messages_witness :
  (∃ w0 pipe,
     log claimed = EvExec pipe :: EvWatch counter_key
                     :: EvActive "fizbit" project 5 :: log w0 ∧
     hgetall_claim (redis claimed) "c0" !! "e" = Some (FInt 160) ∧
     Forall2 (bound_and_extended "c0" 160 60 60)
             (msg_active noon (redis w0) "fizbit" project 5) (written pipe)) ∧
  (∃ w' pipe,
     @update collaborators still "fizbit" "c0" (ttl_is 20) project claimed
       = Ok () w' ∧
     hgetall_claim (redis w') "c0" !! "e" = Some (FInt 120) ∧
     Forall2 (bound_and_extended "c0" 120 20 60)
             (omap (hgetall (redis claimed)) ["m1"; "m2"]) (written pipe)).
Proof.
  split.
  - destruct (proj1 (@claim_binds_and_extends_messages collaborators still)
                1%nat "fizbit" ∅ project 5 (start fresh) "c0"
                (default [] (snd <$>
                   answer (@create collaborators still 1 "fizbit" ∅ project 5
                             (start fresh))))
                claimed)
      as (w0 & pipe & _ & Hlog & He & Hall & _).
    { vm_compute. reflexivity. }
    exists w0, pipe. split_and!; [exact Hlog|exact He|exact Hall].
  - destruct (proj2 (@claim_binds_and_extends_messages collaborators still)
                "fizbit" "c0" (ttl_is 20) project claimed
                (world_of (@update collaborators still "fizbit" "c0" (ttl_is 20)
                             project claimed))
                still_quiet)
      as (pipe & reads & _ & _ & He & Hall & _).
    { vm_compute. reflexivity. }
    eexists _, pipe. split_and!; [vm_compute; reflexivity|exact He|exact Hall].
Defined.

(** C2 as the specification words it fails: a claim created with
    [ttl = 0] at time 100 passes the existence check at time 100, though
    its stored [expires] is not strictly greater than now, and [get]
    returns it. *)
Lemma claim_with_ttl_0_exists_when_created :
  value (@_exists collaborators still "fizbit" "c0" project claimed_for_0)
    = Some true ∧
  ¬ exists_as_specified (redis claimed_for_0)
      (@clock still (ticks claimed_for_0)) "480924.fizbit.claims" "c0" ∧
  value (@get collaborators still "fizbit" "c0" project claimed_for_0)
    = Some (mkClaimMeta 0 0 "c0",
            [(Message.mk "m1" "{}" 60 160 (Some "c0") 100, 100);
             (Message.mk "m2" "{}" 60 160 (Some "c0") 100, 100)]).
Proof.
  split_and!; [vm_compute; reflexivity| |vm_compute; reflexivity].
  intros (_ & expires & He & Hnow). vm_compute in He. injection He as <-.
  vm_compute in Hnow. discriminate.
Qed.

(** C2 (amended) on the queue, with a clock that ticks: the claim created
    with [ttl = 0] at time 103 is gone for a [get] at time 104 and exists
    for a check at time 103. *)
Lemma claim_exists_iff_member_and_not_past_witness :
  let w := after (@create collaborators ticking 1 "fizbit" (ttl_is 0) project 5
                    (start fresh)) in
  hgetall_claim (redis w) "c0" !! "e" = Some (FInt 103) ∧
  raised (@get collaborators ticking "fizbit" "c0" project w)
    = Some (ClaimDoesNotExist (Some "fizbit") project (Some "c0")) ∧
  value (@_exists collaborators ticking "fizbit" "c0" project
           (mkWorld (redis w) 3 0 [])) = Some true.
Proof.
  intros w.
  destruct (@claim_exists_iff_member_and_not_past collaborators ticking
              "fizbit" "c0" project w ticking_quiet) as [_ Hzero].
  destruct (Hzero 1%nat (ttl_is 0) 5 (start fresh)
              (default [] (snd <$>
                 answer (@create collaborators ticking 1 "fizbit" (ttl_is 0)
                           project 5 (start fresh)))))
    as [He Hlater]; [reflexivity|vm_compute; reflexivity|].
  split_and!.
  - exact He.
  - apply (Hlater w); [reflexivity|]. vm_compute. reflexivity.
  - apply (@claim_exists_iff_member_and_not_past collaborators ticking
             "fizbit" "c0" project (mkWorld (redis w) 3 0 []) ticking_quiet).
    split.
    + apply (bool_decide_unpack _). vm_compute. exact I.
    + exists 103. split; [exact He|]. vm_compute. discriminate.
Defined.

(** C3 on a queue with no message. *)
Lemma create_on_empty_queue_witness :
  ∃ w', @create collaborators still 1 "fizbit" ∅ project 5 (start drained)
          = Some (Ok (None, []) w') ∧
        redis w' = drained.
Proof.
  destruct (@create_on_empty_queue collaborators still 0%nat "fizbit" ∅ project
              5 (start drained)) as (w' & Hrun & _ & Hs & _).
  - vm_compute. reflexivity.
  - vm_compute. reflexivity.
  - exists w'. split; [exact Hrun|exact Hs].
Defined.

(** C4 on the queue, when the counter is modified before every round trip:
    the run that raises ClaimConflict went through refused commits until
    the budget was spent. *)
Lemma create_conflict_iff_budget_exhausted_witness :
  ∃ wk, rtc (@retried collaborators contended "fizbit" project 5 "c0" 60 60 noon)
            (mkWorld fresh 1 1 []) wk ∧
        RETRY_CLAIM_TIMEOUT ≤ @clock contended (ticks wk) - noon.
Proof.
  destruct (@create_conflict_iff_budget_exhausted collaborators contended
              "fizbit" ∅ project 5 (start fresh)) as (_ & _ & Hiff & _).
  destruct (proj1 (Hiff (after (@create collaborators contended 2 "fizbit" ∅
                                  project 5 (start fresh)))))
    as (wk & Hturns & Htest & _).
  { exists 2%nat. vm_compute. reflexivity. }
  exists wk. split; [exact Hturns|exact Htest].
Defined.

(** C6 on the first claim. *)
Lemma delete_idempotent_witness :
  let once := @delete collaborators still "fizbit" "c0" project claimed in
  let twice :=
    (@delete collaborators still "fizbit" "c0" project;;
     @delete collaborators still "fizbit" "c0" project) claimed in
  raised twice = raised once ∧ value twice = value once ∧
  redis (world_of twice) = redis (world_of once).
Proof.
  exact (proj2 (proj2 (@delete_idempotent collaborators still "fizbit" "c0"
                         project claimed still_quiet still_monotone))).
Defined.

(** C7 as the specification words it fails: of the two messages of the
    claim one is still in the store, and [delete] takes 2 off the
    counter. *)
Lemma delete_counts_deleted_messages :
  let w := half_gone in
  let w' := world_of (@delete collaborators still "fizbit" "c0" project w) in
  lrange (redis w) "c0.messages" = ["m1"; "m2"] ∧
  hgetall (redis w) "m2" = None ∧
  length (omap (hgetall (redis w)) (lrange (redis w) "c0.messages")) = 1%nat ∧
  counter (redis w) counter_key = 2 ∧
  counter (redis w') counter_key = 0.
Proof. split_and!; vm_compute; reflexivity. Qed.

(** C7 (amended) on the same claim. *)
Lemma delete_releases_claim_witness :
  ∃ w', @delete collaborators still "fizbit" "c0" project half_gone = Ok () w' ∧
        hashes (redis w') !! "c0" = None ∧
        hgetall (redis w') "m1"
          = Some (Message.mk "m1" "{}" 120 220 None noon) ∧
        counter (redis w') counter_key
          = counter (redis half_gone) counter_key - 2.
Proof.
  destruct (@delete_releases_claim collaborators still "fizbit" "c0" project
              half_gone still_quiet)
    as (pipe & reads & w' & Hrun & _ & _ & _ & _ & Hhash & _ & Hmsg & Hcount).
  - apply keyed_by_id. vm_compute. reflexivity.
  - vm_compute. discriminate.
  - vm_compute. discriminate.
  - vm_compute. reflexivity.
  - exists w'. split_and!; [exact Hrun|exact Hhash| |exact Hcount].
    apply (Hmsg "m1" (Message.mk "m1" "{}" 120 220 (Some "c0") 160)).
    + apply (bool_decide_unpack _). vm_compute. exact I.
    + vm_compute. reflexivity.
Defined.

(** C8 on the claim whose second message was deleted. *)
Lemma get_meta_and_present_messages_witness :
  value (@get collaborators still "fizbit" "c0" project half_gone)
    = Some (mkClaimMeta 0 60 "c0",
            [(Message.mk "m1" "{}" 120 220 (Some "c0") 160, noon)]).
Proof.
  apply (proj1 (@get_meta_and_present_messages collaborators still "fizbit" "c0"
                  project half_gone still_quiet) 160 60);
    vm_compute; reflexivity.
Defined.

(** C9 on the store the race left: [m1] is bound to claim [c0] and listed
    by claim [rival]; [update] of [rival] binds it to [rival]. *)
Lemma update_rebinds_messages_witness :
  let s := redis (after (@create collaborators (race 1) 1 "fizbit" ∅ project 5
                           (start fresh))) in
  hgetall s "m1" = Some (Message.mk "m1" "{}" 120 220 (Some "c0") 160) ∧
  ∃ w' msg',
    @update collaborators still "fizbit" "rival" ∅ project (start s) = Ok () w' ∧
    hgetall (redis w') "m1" = Some msg' ∧
    Message.claim_id msg' = Some "rival" ∧
    Message.claim_expires msg' = 160.
Proof.
  intros s. split; [vm_compute; reflexivity|].
  destruct (@update_rebinds_messages collaborators still "fizbit" "rival" ∅
              project (start s) still_quiet) as (w' & Hrun & Hall).
  - apply keyed_by_id. vm_compute. reflexivity.
  - vm_compute. reflexivity.
  - destruct (Hall "m1" (Message.mk "m1" "{}" 120 220 (Some "c0") 160))
      as (msg' & Hmsg & Hid & Hexp).
    + apply (bool_decide_unpack _). vm_compute. exact I.
    + vm_compute. reflexivity.
    + exists w', msg'. split_and!; [exact Hrun|exact Hmsg|exact Hid|exact Hexp].
Defined.

(** C10 as the specification words it fails: at time 100 the stored
    [expires] of 100 is not strictly in the future, and [delete] removes
    the claim record and takes 2 off the counter. *)
Lemma delete_at_expiry_instant_removes_claim :
  let w := claimed_for_0 in
  let w' := world_of (@delete collaborators still "fizbit" "c0" project w) in
  hgetall_claim (redis w) "c0" !! "e" = Some (FInt noon) ∧
  @clock still (ticks w) = noon ∧
  "c0" ∈ smembers (redis w) "480924.fizbit.claims" ∧
  is_Some (hashes (redis w) !! "c0") ∧
  hashes (redis w') !! "c0" = None ∧
  counter (redis w) counter_key = 2 ∧
  counter (redis w') counter_key = 0.
Proof.
  split_and!.
  - vm_compute. reflexivity.
  - vm_compute. reflexivity.
  - apply (bool_decide_unpack _). vm_compute. exact I.
  - vm_compute. eexists. reflexivity.
  - vm_compute. reflexivity.
  - vm_compute. reflexivity.
  - vm_compute. reflexivity.
Qed.

(** C10 (amended): the same claim, four seconds later. *)
Lemma delete_of_absent_claim_writes_nothing_witness :
  ∃ w', @delete collaborators ticking "fizbit" "c0" project claimed_for_0
          = Ok () w' ∧
        redis w' = redis claimed_for_0.
Proof.
  destruct (@delete_of_absent_claim_writes_nothing collaborators ticking
              "fizbit" "c0" project claimed_for_0 ticking_quiet)
    as (w' & reads & Hrun & Hs & _).
  - right. exists noon. split; vm_compute; reflexivity.
  - exists w'. split; [exact Hrun|exact Hs].
Defined.

End Runs.

(** ** More runs on the queue of the scenario *)

Module MoreRuns.
Import Scenario.

Lemma still_is_quiet : @Quiet still.
Proof. by intros n s. Qed.

Lemma keyed (w : World) :
  bool_decide (map_Forall (λ key msg, Message.id msg = key)
                          (messages (redis w))) = true →
  messages_keyed_by_id (redis w).
Proof. intros Hw. by apply bool_decide_eq_true in Hw. Qed.

Lemma length_append (s1 s2 : string) :
  String.length (s1 +:+ s2) = (String.length s1 + String.length s2)%nat.
Proof. induction s1 as [|a s1 IH]; simpl; [done|]. by rewrite IH. Qed.

Lemma append_inj_l (t s1 s2 : string) : s1 +:+ t = s2 +:+ t → s1 = s2.
Proof.
  revert s2. induction s1 as [|a s1 IH]; intros [|b s2] Heq; simpl in Heq.
  - done.
  - apply (f_equal String.length) in Heq. simpl in Heq.
    rewrite !length_append in Heq. simpl in Heq. lia.
  - apply (f_equal String.length) in Heq. simpl in Heq.
    rewrite !length_append in Heq. simpl in Heq. lia.
  - injection Heq as -> Heq. f_equal. by apply IH.
Qed.

Lemma list_keys_inj : Inj (=) (=) (@claim_messages_key collaborators).
Proof. intros c1 c2 Heq. by apply (append_inj_l ".messages"). Qed.

(** X1 on the queue: the first [create]. *)
Lemma create_commits_claim_and_indexes_witness :
  ∃ basic_messages w',
    @create collaborators still 1 "fizbit" ∅ project 5 (start fresh)
      = Some (Ok (Some "c0", basic_messages) w') ∧
    length basic_messages = 2%nat ∧
    lrange (redis w') "c0.messages" = ["m1"; "m2"] ∧
    counter (redis w') counter_key = 2.
Proof.
  destruct (@create_commits_claim_and_indexes collaborators still 0%nat "fizbit"
              ∅ project 5 (start fresh) still_is_quiet)
    as (basic_messages & pipe & w' & Hrun & Hlen & _ & _ & _ & _ & _ & Hlist
        & Hcount).
  - vm_compute. reflexivity.
  - vm_compute. discriminate.
  - exists basic_messages, w'.
    split_and!; [exact Hrun|exact Hlen|exact Hlist|exact Hcount].
Defined.

(** X2 on the queue: [get] right after the first [create]. *)
Lemma get_after_create_witness :
  value (@get collaborators still "fizbit" "c0" project claimed)
    = Some (mkClaimMeta 0 60 "c0",
            [(Message.mk "m1" "{}" 120 220 (Some "c0") 160, noon);
             (Message.mk "m2" "{}" 120 220 (Some "c0") 160, noon)]).
Proof.
  destruct (@get_after_create collaborators still 1%nat "fizbit" ∅ project 5
              (start fresh) "c0"
              (default [] (snd <$>
                 answer (@create collaborators still 1 "fizbit" ∅ project 5
                           (start fresh))))
              claimed still_is_quiet) as [_ Hget].
  - vm_compute. reflexivity.
  - apply (bool_decide_unpack _). vm_compute. exact I.
  - vm_compute. reflexivity.
  - vm_compute. discriminate.
  - etrans; [exact Hget|]. vm_compute. reflexivity.
Defined.

(** X3 on the queue: [delete] right after the first [create]. *)
Lemma delete_after_create_witness :
  ∃ w'',
    @delete collaborators still "fizbit" "c0" project claimed = Ok () w'' ∧
    counter (redis w'') counter_key = counter fresh counter_key ∧
    hgetall (redis w'') "m1" = Some (Message.mk "m1" "{}" 120 220 None noon).
Proof.
  destruct (@delete_after_create collaborators still 1%nat "fizbit" ∅ project 5
              (start fresh) "c0"
              (default [] (snd <$>
                 answer (@create collaborators still 1 "fizbit" ∅ project 5
                           (start fresh))))
              claimed still_is_quiet)
    as (w'' & Hrun & Hcount & _ & _ & _ & Hmsg).
  - vm_compute. reflexivity.
  - apply keyed. vm_compute. reflexivity.
  - apply (bool_decide_unpack _). vm_compute. exact I.
  - vm_compute. reflexivity.
  - vm_compute. discriminate.
  - vm_compute. discriminate.
  - vm_compute. discriminate.
  - exists w''. split_and!; [exact Hrun|exact Hcount|].
    etrans; [apply (Hmsg (message "m1"))|vm_compute; reflexivity].
    vm_compute. constructor.
Defined.

(** X4 on the queue: [update] of the first claim with [ttl = 20]. *)
Lemma update_touches_only_its_claim_witness :
  ∃ w',
    @update collaborators still "fizbit" "c0" (ttl_is 20) project claimed
      = Ok () w' ∧
    sets (redis w') = sets (redis claimed) ∧
    lists (redis w') = lists (redis claimed) ∧
    counters (redis w') = counters (redis claimed) ∧
    hgetall_claim (redis w') "c0" !! "id" = Some (FStr "c0").
Proof.
  destruct (@update_touches_only_its_claim collaborators still "fizbit" "c0"
              (ttl_is 20) project claimed still_is_quiet)
    as (pipe & reads & w' & Hrun & _ & _ & Hs & Hl & Hc & _ & Hf & _).
  - apply keyed. vm_compute. reflexivity.
  - vm_compute. reflexivity.
  - exists w'. split_and!; [exact Hrun|exact Hs|exact Hl|exact Hc|].
    rewrite (Hf "id"); [vm_compute; reflexivity|vm_compute; discriminate..].
Defined.

(** X5 on the store the race left: [delete] of [rival] leaves [c0] in the
    claims set, with its record. *)
Lemma delete_touches_only_its_claim_witness :
  ∃ w',
    @delete collaborators still "fizbit" "rival" project raced = Ok () w' ∧
    "c0" ∈ smembers (redis w') "480924.fizbit.claims" ∧
    hashes (redis w') !! "c0" = hashes (redis raced) !! "c0".
Proof.
  destruct (@delete_touches_only_its_claim collaborators still "fizbit" "rival"
              project raced still_is_quiet)
    as (w' & Hrun & Hset & Hrest).
  - apply keyed. vm_compute. reflexivity.
  - vm_compute. discriminate.
  - vm_compute. discriminate.
  - vm_compute. reflexivity.
  - exists w'. split_and!; [exact Hrun| |].
    + apply (Hset "c0"); [vm_compute; discriminate|].
      apply (bool_decide_unpack _). vm_compute. exact I.
    + apply (Hrest "c0"); vm_compute; discriminate.
Defined.

(** X6 on a queue with no claim. *)
Lemma update_of_absent_claim_raises_witness :
  raised (@update collaborators still "fizbit" "c7" ∅ project (start fresh))
    = Some (ClaimDoesNotExist (Some "c7") (Some "fizbit") project) ∧
  raised (@get collaborators still "fizbit" "c7" project (start fresh))
    = Some (ClaimDoesNotExist (Some "fizbit") project (Some "c7")).
Proof.
  destruct (@update_of_absent_claim_raises collaborators still "fizbit" "c7" ∅
              project (start fresh) still_is_quiet) as (Hu & Hg & _).
  - vm_compute. reflexivity.
  - split; [exact Hu|exact Hg].
Defined.

(** X7 on the first claim, its record removed. *)
Lemma stale_member_without_record_raises_TypeError_witness :
  raised (@get collaborators still "fizbit" "c0" project orphaned)
    = Some TypeError ∧
  raised (@delete collaborators still "fizbit" "c0" project orphaned)
    = Some TypeError.
Proof.
  destruct (@stale_member_without_record_raises_TypeError collaborators still
              "fizbit" "c0" ∅ project orphaned still_is_quiet)
    as (_ & Hg & _ & Hd & _).
  - apply (bool_decide_unpack _). vm_compute. exact I.
  - vm_compute. reflexivity.
  - split; [exact Hg|exact Hd].
Defined.

(** X8 when the counter is modified before every round trip and four
    seconds pass between two readings of the clock: fuel 4 is enough. *)
Lemma create_terminates_witness :
  ∃ r, @create collaborators contended 4 "fizbit" ∅ project 5 (start fresh)
         = Some r.
Proof.
  apply (@create_terminates collaborators contended 3%nat "fizbit" ∅ project 5
           (start fresh)).
  intros n Hn. unfold RETRY_CLAIM_TIMEOUT. simpl. unfold noon. lia.
Defined.

(** X9 when the rival commits between our WATCH and our EXEC: one refused
    EXEC, no commit. *)
Lemma create_commits_at_most_once_witness :
  ∃ evs,
    log (after (@create collaborators (race 2) 2 "fizbit" ∅ project 5
                  (start fresh))) = evs ++ [] ∧
    commits evs = 0%nat.
Proof.
  destruct (@create_commits_at_most_once collaborators (race 2) 2%nat "fizbit"
              ∅ project 5 (start fresh)
              (Ok (None, [])
                  (after (@create collaborators (race 2) 2 "fizbit" ∅ project 5
                            (start fresh)))))
    as (evs & Hlog & Hcommits).
  - vm_compute. reflexivity.
  - exists evs. split; [exact Hlog|exact Hcommits].
Defined.

(** X10 on the first claim. *)
Lemma claim_gone_after_delete_witness :
  ∃ w',
    @delete collaborators still "fizbit" "c0" project claimed = Ok () w' ∧
    raised (@get collaborators still "fizbit" "c0" project w')
      = Some (ClaimDoesNotExist (Some "fizbit") project (Some "c0")) ∧
    raised (@update collaborators still "fizbit" "c0" ∅ project w')
      = Some (ClaimDoesNotExist (Some "c0") (Some "fizbit") project).
Proof.
  destruct (@claim_gone_after_delete collaborators still "fizbit" "c0" ∅ project
              claimed still_is_quiet) as (w' & Hrun & Hlater).
  - vm_compute. reflexivity.
  - destruct (Hlater w' eq_refl) as (_ & Hg & Hu).
    exists w'. split_and!; [exact Hrun|exact Hg|exact Hu].
Defined.

(** X11 on the first claim: [update] with [ttl = 20], then [get]. *)
Lemma get_after_update_witness :
  ∃ w' basic_messages,
    @update collaborators still "fizbit" "c0" (ttl_is 20) project claimed
      = Ok () w' ∧
    value (@get collaborators still "fizbit" "c0" project w')
      = Some (mkClaimMeta 0 20 "c0", basic_messages) ∧
    length basic_messages = 2%nat.
Proof.
  destruct (@get_after_update collaborators still "fizbit" "c0" (ttl_is 20)
              project claimed still_is_quiet) as (w' & Hrun & Hget).
  - apply keyed. vm_compute. reflexivity.
  - vm_compute. reflexivity.
  - exists w'. eexists. split_and!; [exact Hrun|apply Hget|].
    + vm_compute. discriminate.
    + vm_compute. reflexivity.
Defined.

(** X13 on the queue: the counter matches the lists after the first
    [create], and after the [delete] of that claim. *)
Lemma counter_matches_lists_is_kept_witness :
  counter_matches_lists (redis claimed) "fizbit" project ∧
  counter_matches_lists
    (redis (world_of (@delete collaborators still "fizbit" "c0" project claimed)))
    "fizbit" project.
Proof.
  destruct (@counter_matches_lists_is_kept collaborators still "fizbit" project
              still_is_quiet list_keys_inj) as (Hcreate & _ & Hdelete).
  assert (counter_matches_lists (redis claimed) "fizbit" project) as Hclaimed.
  { apply (Hcreate 1%nat ∅ 5 (start fresh)
             (Some "c0",
              default [] (snd <$>
                answer (@create collaborators still 1 "fizbit" ∅ project 5
                          (start fresh))))).
    - vm_compute. reflexivity.
    - apply (bool_decide_unpack _). vm_compute. exact I.
    - vm_compute. reflexivity.
    - vm_compute. reflexivity. }
  split; [exact Hclaimed|].
  apply (Hdelete "c0" claimed).
  - exact Hclaimed.
  - vm_compute. discriminate.
  - vm_compute. discriminate.
  - vm_compute. discriminate.
  - vm_compute. discriminate.
  - intros other Heq. apply (f_equal String.length) in Heq.
    change (@claim_messages_key collaborators other) with (other +:+ ".messages")
      in Heq.
    rewrite length_append in Heq. simpl in Heq. lia.
  - vm_compute. reflexivity.
Defined.

End MoreRuns.
